(** * Performa voice control: the command dispatcher of [whisper.js] and the
    [WhisperSpeechRecognition] shim.

  The development embeds the two JavaScript sources as Rocq functions:

  - [JsString]: the string primitives the dispatcher calls
    ([toLowerCase], [includes], [split], [trim]);
  - [Dispatcher]: [processCommand] of whisper.js, as a function from the
    configuration, the relevant part of the DOM and the transcript to the
    sequence of calls it makes and the way it completes;
  - [Recorder]: [startWhisperRecognition] / [stopWhisperRecognition] of
    whisper.js over the module-level variables;
  - [Shim]: the class [WhisperSpeechRecognition] ([_initWhisper], [start],
    [stop], [abort]) over its fields.

  JavaScript strings are sequences of UTF-16 code units; the model keeps
  the code units below 256 (Rocq's [ascii], read as Latin-1), on which
  [toLowerCase] and [trim] are written out in full. *)

From Stdlib Require Import ZArith List Bool Arith Lia Ascii String.
From Stdlib Require QArith_base.
Import ListNotations.
Local Open Scope string_scope.

(** ** JavaScript strings *)

Module JsString.

(** Code units with a lower-case mapping: A-Z, and in the Latin-1 block
    U+00C0-U+00DE except the multiplication sign U+00D7. *)
Definition isUpper (c : ascii) : bool :=
  let n := nat_of_ascii c in
  (((65 <=? n) && (n <=? 90)) ||
   ((192 <=? n) && (n <=? 222) && negb (n =? 215)))%nat.

Definition lowerUnit (c : ascii) : ascii :=
  if isUpper c then ascii_of_nat (nat_of_ascii c + 32) else c.

(** [String.prototype.toLowerCase] *)
Fixpoint toLowerCase (s : string) : string :=
  match s with
  | EmptyString => EmptyString
  | String c s' => String (lowerUnit c) (toLowerCase s')
  end.

(** WhiteSpace and LineTerminator code units below 256:
    TAB, LF, VT, FF, CR, SP and NBSP. *)
Definition isSpace (c : ascii) : bool :=
  let n := nat_of_ascii c in
  (((9 <=? n) && (n <=? 13)) || (n =? 32) || (n =? 160))%nat.

Fixpoint trimStart (s : string) : string :=
  match s with
  | EmptyString => EmptyString
  | String c s' => if isSpace c then trimStart s' else s
  end.

Fixpoint trimEnd (s : string) : string :=
  match s with
  | EmptyString => EmptyString
  | String c s' =>
      match trimEnd s' with
      | EmptyString => if isSpace c then EmptyString else String c EmptyString
      | r => String c r
      end
  end.

(** [String.prototype.trim] *)
Definition trim (s : string) : string := trimEnd (trimStart s).

Fixpoint drop (n : nat) (s : string) : string :=
  match n, s with
  | O, _ => s
  | S _, EmptyString => EmptyString
  | S n', String _ s' => drop n' s'
  end.

(** The first occurrence of [p] in [s], scanning from the left as
    StringIndexOf does: the text before it and the text after it. *)
Fixpoint cut (p s : string) {struct s} : option (string * string) :=
  if prefix p s then Some (EmptyString, drop (length p) s)
  else
    match s with
    | EmptyString => None
    | String c s' =>
        match cut p s' with
        | Some (b, a) => Some (String c b, a)
        | None => None
        end
    end.

(** [String.prototype.includes], with the search string already a string. *)
Definition includes (s p : string) : bool :=
  match cut p s with
  | Some _ => true
  | None => false
  end.

(** The search loop of [String.prototype.split] for a non-empty
    separator: each round takes the text up to the next occurrence and
    resumes behind it.  [n] bounds the number of rounds. *)
Fixpoint splitLoop (n : nat) (sep s : string) : list string :=
  match cut sep s with
  | None => [s]
  | Some (b, a) =>
      match n with
      | O => [b]
      | S n' => b :: splitLoop n' sep a
      end
  end.

Fixpoint units (s : string) : list string :=
  match s with
  | EmptyString => []
  | String c s' => String c EmptyString :: units s'
  end.

(** [String.prototype.split] with a string separator and no limit: an
    empty separator yields the code units, one string each. *)
Definition split (s sep : string) : list string :=
  match sep with
  | EmptyString => units s
  | _ => splitLoop (length s) sep s
  end.

End JsString.

(** ** The command dispatcher: [processCommand] of whisper.js *)

Module Dispatcher.
Import JsString.

(** The table [getVoiceCommands()] returns.  Its definition is not part of
    whisper.js, so the table is a parameter of the dispatcher: the fields
    [processCommand] reads, each a string. *)
Record voiceCommands := {
  startTimer : string;      startTimerFeedback : string;
  stopTimer : string;       stopTimerFeedback : string;
  resetTimer : string;      resetTimerFeedback : string;
  startJog : string;        startJogFeedback : string;
  stopJog : string;         stopJogFeedback : string;
  logExercise : string;
  startTimerFor : string;
  addEntry : string;        addEntryFeedback : string;
  setActualReps : string;   setActualRepsFeedback : string;
  showProgress : string;
  showArchive : string;
  openSettings : string;
  goHome : string;
  navigationFeedback : string
}.

(** An element of [complexTasks] or [automationSequences]: the properties
    the matching code reads; [None] is a property that is [undefined]. *)
Record entry := {
  commands : option (list string);
  command : option string;
  primaryCommand : option string;
  name : option string
}.

(** The document, as far as [getElementById] shows it: [None] is [null],
    otherwise the element's [value]. *)
Definition document := string -> option string.

Record world := {
  voice : voiceCommands;
  getElementById : document;
  complexTasks : list entry;
  automationSequences : list entry
}.

(** The application functions the dispatcher invokes. *)
Inductive action :=
| StartTimer | StopTimer | ResetTimer | StartJogging | StopJogging
| HandleSmartExerciseLogging (exerciseName : string)
| HandleTimerForDuration (timeText : string)
| Click (id : string)
| SetValue (id : string) (repsValue : string)
| ShowProgressView | ShowArchiveView | ShowSettingsView | HideAllViews
| ExecuteComplexTask (task : entry)
| ExecuteAutomationSequence (automation : entry).

Inductive event :=
| Act (a : action)
| SpeakFeedback (text : string) (key : option string).

(** How a call completes: normally, or by a TypeError that leaves
    [processCommand] (nothing in it catches). *)
Inductive completion := Normal | TypeError.

Definition run := (list event * completion)%type.

Definition notRecognized : string :=
  "Command not recognized. Please try again or check your voice settings.".

(** ToString of a property used as a search string. *)
Definition toString (v : option string) : string :=
  match v with
  | Some s => s
  | None => "undefined"
  end.

(** ToBoolean of a string-or-undefined value. *)
Definition truthy (v : option string) : bool :=
  match v with
  | Some (String _ _) => true
  | _ => false
  end.

(** [transcript.split(phrase)[1].trim()]: [None] is the TypeError of
    calling [trim] on [undefined]. *)
Definition extractArg (transcript phrase : string) : option string :=
  option_map trim (nth_error (split transcript phrase) 1).

(** The test of the complex-task loop (lines 157-161). *)
Definition taskMatches (transcript : string) (task : entry) : bool :=
  match commands task with
  | Some cmds =>
      truthy (find (fun cmd => includes transcript (toLowerCase cmd)) cmds)
  | None =>
      includes transcript
        (toString (if truthy (command task)
                   then option_map toLowerCase (command task)
                   else primaryCommand task))
  end.

(** The test of the automation loop (lines 171-175); [None] is the
    TypeError of [automation.name.toLowerCase()] on a missing name. *)
Definition automationMatches (transcript : string) (automation : entry)
  : option bool :=
  match commands automation with
  | Some cmds =>
      Some (truthy (find (fun cmd => includes transcript (toLowerCase cmd)) cmds))
  | None =>
      if truthy (command automation)
      then Some (includes transcript
                   (toString (option_map toLowerCase (command automation))))
      else match name automation with
           | Some n => Some (includes transcript (toLowerCase n))
           | None => None
           end
  end.

(** [for (const task of complexTasks)]: the calls made and [commandFound]. *)
Fixpoint forComplexTasks (transcript : string) (tasks : list entry)
  : list event * bool :=
  match tasks with
  | [] => ([], false)
  | task :: rest =>
      if taskMatches transcript task
      then ([Act (ExecuteComplexTask task)], true)
      else forComplexTasks transcript rest
  end.

(** [for (const automation of automationSequences)]. *)
Fixpoint forAutomations (transcript : string) (autos : list entry)
  : option (list event * bool) :=
  match autos with
  | [] => Some ([], false)
  | automation :: rest =>
      match automationMatches transcript automation with
      | None => None
      | Some true => Some ([Act (ExecuteAutomationSequence automation)], true)
      | Some false => forAutomations transcript rest
      end
  end.

(** The final [else] block (lines 153-186). *)
Definition otherwise (w : world) (transcript : string) : run :=
  let (tr, commandFound) := forComplexTasks transcript (complexTasks w) in
  if commandFound then (tr, Normal)
  else
    match forAutomations transcript (automationSequences w) with
    | None => (tr, TypeError)
    | Some (tr', commandFound) =>
        if commandFound then ((tr ++ tr')%list, Normal)
        else ((tr ++ tr' ++ [SpeakFeedback notRecognized None])%list, Normal)
    end.

(** The element [repsField] ends up naming (lines 130-135), by its id;
    [None] when it stays [undefined] or the lookup answers [null]. *)
Definition repsField (w : world) (type : string) : option string :=
  if (type =? "reps")%string then
    option_map (fun _ => "actualValue") (getElementById w "actualValue")
  else if (type =? "semi")%string then
    option_map (fun _ => "reps") (getElementById w "reps")
  else None.

Definition processCommand (w : world) (transcript : string) : run :=
  let commands := voice w in
  let transcript := toLowerCase transcript in
  if includes transcript (startTimer commands) then
    ([Act StartTimer;
      SpeakFeedback (startTimerFeedback commands) (Some "startTimer")], Normal)
  else if includes transcript (stopTimer commands) then
    ([Act StopTimer;
      SpeakFeedback (stopTimerFeedback commands) (Some "stopTimer")], Normal)
  else if includes transcript (resetTimer commands) then
    ([Act ResetTimer; SpeakFeedback (resetTimerFeedback commands) None], Normal)
  else if includes transcript (startJog commands) then
    ([Act StartJogging; SpeakFeedback (startJogFeedback commands) None], Normal)
  else if includes transcript (stopJog commands) then
    ([Act StopJogging; SpeakFeedback (stopJogFeedback commands) None], Normal)
  else if includes transcript (logExercise commands) then
    match extractArg transcript (logExercise commands) with
    | None => ([], TypeError)
    | Some exerciseName => ([Act (HandleSmartExerciseLogging exerciseName)], Normal)
    end
  else if includes transcript (startTimerFor commands) then
    match extractArg transcript (startTimerFor commands) with
    | None => ([], TypeError)
    | Some timeText => ([Act (HandleTimerForDuration timeText)], Normal)
    end
  else if includes transcript (addEntry commands) then
    match getElementById w "addEntry" with
    | Some _ =>
        ([Act (Click "addEntry");
          SpeakFeedback (addEntryFeedback commands) (Some "addEntry")], Normal)
    | None => ([], Normal)
    end
  else if includes transcript (setActualReps commands) then
    match extractArg transcript (setActualReps commands) with
    | None => ([], TypeError)
    | Some repsValue =>
        match getElementById w "type" with
        | None => ([], TypeError)
        | Some type =>
            match repsField w type with
            | Some id =>
                ([Act (SetValue id repsValue);
                  SpeakFeedback
                    (setActualRepsFeedback commands ++ " " ++ repsValue) None],
                 Normal)
            | None => ([], Normal)
            end
        end
    end
  else if includes transcript (showProgress commands) then
    ([Act ShowProgressView;
      SpeakFeedback (navigationFeedback commands ++ " progress view") None], Normal)
  else if includes transcript (showArchive commands) then
    ([Act ShowArchiveView;
      SpeakFeedback (navigationFeedback commands ++ " archive view") None], Normal)
  else if includes transcript (openSettings commands) then
    ([Act ShowSettingsView;
      SpeakFeedback (navigationFeedback commands ++ " settings") None], Normal)
  else if includes transcript (goHome commands) then
    ([Act HideAllViews;
      SpeakFeedback (navigationFeedback commands ++ " home") None], Normal)
  else otherwise w transcript.

(** *** The dispatch algorithm as the specification words it

    Step 1-2: a fixed, ordered table of built-ins, first containing phrase
    wins; steps 3-4: the two supplied lists scanned in order; step 5: the
    generic feedback. *)

Inductive builtin :=
| BStartTimer | BStopTimer | BResetTimer | BStartJog | BStopJog
| BLogExercise | BStartTimerFor | BAddEntry | BSetActualReps
| BShowProgress | BShowArchive | BOpenSettings | BGoHome.

Definition table : list builtin :=
  [BStartTimer; BStopTimer; BResetTimer; BStartJog; BStopJog;
   BLogExercise; BStartTimerFor; BAddEntry; BSetActualReps;
   BShowProgress; BShowArchive; BOpenSettings; BGoHome].

Definition trigger (c : voiceCommands) (b : builtin) : string :=
  match b with
  | BStartTimer => startTimer c
  | BStopTimer => stopTimer c
  | BResetTimer => resetTimer c
  | BStartJog => startJog c
  | BStopJog => stopJog c
  | BLogExercise => logExercise c
  | BStartTimerFor => startTimerFor c
  | BAddEntry => addEntry c
  | BSetActualReps => setActualReps c
  | BShowProgress => showProgress c
  | BShowArchive => showArchive c
  | BOpenSettings => openSettings c
  | BGoHome => goHome c
  end.

(** What each built-in does once selected. *)
Definition perform (w : world) (transcript : string) (b : builtin) : run :=
  let c := voice w in
  match b with
  | BStartTimer =>
      ([Act StartTimer; SpeakFeedback (startTimerFeedback c) (Some "startTimer")],
       Normal)
  | BStopTimer =>
      ([Act StopTimer; SpeakFeedback (stopTimerFeedback c) (Some "stopTimer")],
       Normal)
  | BResetTimer => ([Act ResetTimer; SpeakFeedback (resetTimerFeedback c) None], Normal)
  | BStartJog => ([Act StartJogging; SpeakFeedback (startJogFeedback c) None], Normal)
  | BStopJog => ([Act StopJogging; SpeakFeedback (stopJogFeedback c) None], Normal)
  | BLogExercise =>
      match extractArg transcript (logExercise c) with
      | Some x => ([Act (HandleSmartExerciseLogging x)], Normal)
      | None => ([], TypeError)
      end
  | BStartTimerFor =>
      match extractArg transcript (startTimerFor c) with
      | Some x => ([Act (HandleTimerForDuration x)], Normal)
      | None => ([], TypeError)
      end
  | BAddEntry =>
      match getElementById w "addEntry" with
      | Some _ =>
          ([Act (Click "addEntry");
            SpeakFeedback (addEntryFeedback c) (Some "addEntry")], Normal)
      | None => ([], Normal)
      end
  | BSetActualReps =>
      match extractArg transcript (setActualReps c), getElementById w "type" with
      | Some x, Some type =>
          match repsField w type with
          | Some id =>
              ([Act (SetValue id x);
                SpeakFeedback (setActualRepsFeedback c ++ " " ++ x) None], Normal)
          | None => ([], Normal)
          end
      | _, _ => ([], TypeError)
      end
  | BShowProgress =>
      ([Act ShowProgressView;
        SpeakFeedback (navigationFeedback c ++ " progress view") None], Normal)
  | BShowArchive =>
      ([Act ShowArchiveView;
        SpeakFeedback (navigationFeedback c ++ " archive view") None], Normal)
  | BOpenSettings =>
      ([Act ShowSettingsView;
        SpeakFeedback (navigationFeedback c ++ " settings") None], Normal)
  | BGoHome =>
      ([Act HideAllViews;
        SpeakFeedback (navigationFeedback c ++ " home") None], Normal)
  end.

(** The first built-in of the table whose phrase the transcript contains. *)
Definition firstBuiltin (c : voiceCommands) (transcript : string)
  : option builtin :=
  find (fun b => includes transcript (trigger c b)) table.

(** The first automation that matches; the outer [None] is a TypeError
    met on the way. *)
Fixpoint firstAutomation (transcript : string) (autos : list entry)
  : option (option entry) :=
  match autos with
  | [] => Some None
  | a :: rest =>
      match automationMatches transcript a with
      | None => None
      | Some true => Some (Some a)
      | Some false => firstAutomation transcript rest
      end
  end.

Definition dispatchByPriority (w : world) (transcript : string) : run :=
  let t := toLowerCase transcript in
  match firstBuiltin (voice w) t with
  | Some b => perform w t b
  | None =>
      match find (taskMatches t) (complexTasks w) with
      | Some task => ([Act (ExecuteComplexTask task)], Normal)
      | None =>
          match firstAutomation t (automationSequences w) with
          | None => ([], TypeError)
          | Some (Some a) => ([Act (ExecuteAutomationSequence a)], Normal)
          | Some None => ([SpeakFeedback notRecognized None], Normal)
          end
      end
  end.

(** The actions among the calls of a run. *)
Fixpoint actions (tr : list event) : list action :=
  match tr with
  | [] => []
  | Act a :: rest => a :: actions rest
  | SpeakFeedback _ _ :: rest => actions rest
  end.

(** For the three argument-taking built-ins: the phrase that selects the
    action and the argument the action received. *)
Definition argumentOf (c : voiceCommands) (a : action)
  : option (string * string) :=
  match a with
  | HandleSmartExerciseLogging x => Some (logExercise c, x)
  | HandleTimerForDuration x => Some (startTimerFor c, x)
  | SetValue _ x => Some (setActualReps c, x)
  | _ => None
  end.

(** The text after the first occurrence of [phrase], trimmed. *)
Definition trimmedRemainder (transcript phrase : string) : option string :=
  option_map (fun ba => trim (snd ba)) (cut phrase transcript).

(** The text between the first occurrence of [phrase] and the next one
    behind it (all that follows when there is none), trimmed. *)
Definition trimmedSegment (transcript phrase : string) : option string :=
  match cut phrase transcript with
  | Some (_, rest) =>
      match cut phrase rest with
      | Some (seg, _) => Some (trim seg)
      | None => Some (trim rest)
      end
  | None => None
  end.

(** The reading under which every argument-taking action receives the
    trimmed remainder behind the first occurrence of its phrase. *)
Definition argumentIsRemainder : Prop :=
  forall (w : world) (transcript : string) (a : action) (phrase x : string),
    In a (actions (fst (processCommand w transcript))) ->
    argumentOf (voice w) a = Some (phrase, x) ->
    trimmedRemainder (toLowerCase transcript) phrase = Some x.

(** The reading under which every transcript leads to some call: an
    action or a feedback. *)
Definition neverSilent : Prop :=
  forall (w : world) (transcript : string),
    fst (processCommand w transcript) <> [].

(** The reading under which both loops apply one predicate: an entry
    tested as a complex task and the same phrases offered as an automation
    (the fallback phrase under [name] instead of [primaryCommand]) give
    the same answer. *)
Definition asAutomation (task : entry) : entry :=
  {| commands := commands task; command := command task;
     primaryCommand := None; name := primaryCommand task |}.

Definition samePredicate : Prop :=
  forall (transcript : string) (task : entry),
    automationMatches transcript (asAutomation task)
    = Some (taskMatches transcript task).

(** *** Sample configuration, with the phrases of the specification's
    scenarios *)

Definition sampleCommands : voiceCommands :=
  {| startTimer := "start timer";   startTimerFeedback := "Timer started";
     stopTimer := "stop timer";     stopTimerFeedback := "Timer stopped";
     resetTimer := "reset timer";   resetTimerFeedback := "Timer reset";
     startJog := "start jogging";   startJogFeedback := "Jogging started";
     stopJog := "stop jogging";     stopJogFeedback := "Jogging stopped";
     logExercise := "log exercise";
     startTimerFor := "timer for";
     addEntry := "add entry";       addEntryFeedback := "Entry added";
     setActualReps := "set actual reps";
     setActualRepsFeedback := "Actual reps set to";
     showProgress := "show progress";
     showArchive := "show archive";
     openSettings := "open settings";
     goHome := "go home";
     navigationFeedback := "Showing" |}.

Definition byCommands (l : list string) : entry :=
  {| commands := Some l; command := None; primaryCommand := None; name := None |}.
Definition byPrimaryCommand (p : string) : entry :=
  {| commands := None; command := None; primaryCommand := Some p; name := None |}.
Definition byName (n : string) : entry :=
  {| commands := None; command := None; primaryCommand := None; name := Some n |}.

(** An entry that carries no phrase at all. *)
Definition unnamed : entry :=
  {| commands := None; command := None; primaryCommand := None; name := None |}.

(** A page with the add button and the reps input in [reps] mode. *)
Definition samplePage : document :=
  fun id =>
    if (id =? "addEntry")%string then Some ""
    else if (id =? "type")%string then Some "reps"
    else if (id =? "actualValue")%string then Some "0"
    else None.

(** A page on which no element is found. *)
Definition emptyPage : document := fun _ => None.

Definition sampleWorld : world :=
  {| voice := sampleCommands;
     getElementById := samplePage;
     complexTasks := [byCommands ["Morning Routine"; "start my day"]];
     automationSequences := [byName "Cool Down"] |}.

Definition taskWorld (task : entry) : world :=
  {| voice := sampleCommands; getElementById := samplePage;
     complexTasks := [task]; automationSequences := [] |}.

Definition automationWorld (automation : entry) : world :=
  {| voice := sampleCommands; getElementById := samplePage;
     complexTasks := []; automationSequences := [automation] |}.

Definition bareWorld : world :=
  {| voice := sampleCommands;
     getElementById := emptyPage;
     complexTasks := [];
     automationSequences := [] |}.

End Dispatcher.

(** ** The recorder of whisper.js: [startWhisperRecognition] and
     [stopWhisperRecognition] over the module-level variables *)

Module Recorder.

(** The module-level variables; for [whisper], [audioContext] and
    [mediaRecorder] what the code tests is whether they hold an object. *)
Record vars := {
  whisper : bool;
  isRecording : bool;
  audioContext : bool;
  mediaRecorder : bool
}.

(** What the browser answers during one call. *)
Record browser := {
  WhisperDefined : bool;     (* typeof Whisper !== 'undefined' *)
  scriptLoads : bool;        (* the script element fires onload *)
  initResolves : bool;       (* whisper.init() resolves *)
  getUserMedia : bool        (* the microphone promise resolves *)
}.

Inductive event :=
| UpdateVoiceStatus (text kind : string)
| RecorderStart
| RecorderStop.

(** [initializeWhisper]; a script that loads defines [Whisper], and the
    progress updates of the model download are left out of the calls. *)
Definition initializeWhisper (b : browser) (v : vars) : vars * list event :=
  if negb (WhisperDefined b) && negb (scriptLoads b) then
    (v, [UpdateVoiceStatus "Whisper failed to load" "error"])
  else
    let v' := {| whisper := true; isRecording := isRecording v;
                 audioContext := audioContext v;
                 mediaRecorder := mediaRecorder v |} in
    if initResolves b
    then (v', [UpdateVoiceStatus "Whisper ready" "ready"])
    else (v', [UpdateVoiceStatus "Whisper failed to load" "error"]).

Definition stopWhisperRecognition (v : vars) : vars * list event :=
  if mediaRecorder v && isRecording v then
    ({| whisper := whisper v; isRecording := false;
        audioContext := audioContext v;
        mediaRecorder := mediaRecorder v |}, [RecorderStop])
  else (v, []).

Definition startWhisperRecognition (b : browser) (v : vars)
  : vars * list event :=
  let (v1, tr1) := if negb (whisper v) then initializeWhisper b v else (v, []) in
  if isRecording v1 then
    let (v2, tr2) := stopWhisperRecognition v1 in (v2, (tr1 ++ tr2)%list)
  else if getUserMedia b then
    ({| whisper := whisper v1; isRecording := true;
        audioContext := true; mediaRecorder := true |},
     (tr1 ++ [RecorderStart; UpdateVoiceStatus "Listening..." "listening"])%list)
  else
    (v1, (tr1 ++ [UpdateVoiceStatus "Mic access denied" "error"])%list).

End Recorder.

(** ** The [WhisperSpeechRecognition] shim *)

Module Shim.

(** A fallback recognizer (the native one or the offline simulation):
    whether its [start()] throws and whether it has a [stop] method.
    [stop()] is called inside its own try/catch, so whether it throws
    changes nothing. *)
Record fallback := {
  startThrows : bool;
  hasStop : bool
}.

(** A media stream: its tracks, [None] when it has no [getTracks]. *)
Record mediaStream := {
  getTracks : option nat
}.

(** The fields of a [WhisperSpeechRecognition] object that [start] and
    [stop] read or write.  The four callback slots hold [true] when a
    handler is installed.  [_audioCtx] and [_processor] hold [true] when
    they refer to an object ([AudioContext.close()] sits in its own
    try/catch; [AudioNode.disconnect()] without arguments does not throw). *)
Record recognition := {
  onresult : bool;
  onstart : bool;
  onend : bool;
  onerror : bool;
  _listening : bool;
  _audioCtx : bool;
  _mediaStream : option mediaStream;
  _processor : bool;
  _moduleLoaded : bool;
  _modelData : bool;
  _usingFallback : bool;
  _fallbackShim : option fallback
}.

(** How far the microphone block of [start] (lines 205-227) gets. *)
Inductive microphone :=
| ContextFails (message : string)         (* new AudioContext throws *)
| StreamFails (message : string)          (* getUserMedia rejects *)
| GraphFails (s : mediaStream) (message : string)
                                          (* createMediaStreamSource or
                                             createScriptProcessor throws *)
| ConnectFails (s : mediaStream) (message : string)
                                          (* a connect() throws *)
| Live (s : mediaStream).

(** What the platform answers during one [start()].  For a provider, the
    outer [None] is a missing global; the inner [None] is a constructor
    that throws, respectively a provider without [recognition]. *)
Record platform := {
  modelFetches : bool;
  mainJsLoads : bool;
  NativeRecognition : option (option fallback);
  enhancedOfflineVoice : option (option fallback);
  offlineVoice : option (option fallback);
  mic : microphone
}.

(** The calls [start] and [stop] make: the application's handlers, the
    start beep (an attempt inside its own try/catch), [start()] and [stop()]
    of the fallback recognizer, [disconnect()] of the processor, [close()]
    of the audio context, [stop()] of a track, and [console.warn]. *)
Inductive event :=
| OnStart | OnEnd | OnError (error : string)
| Beep
| FallbackStart | FallbackStop
| Disconnect | Close | TrackStop
| Warn (what : string).

(** [new WhisperSpeechRecognition()] *)
Definition constructor : recognition :=
  {| onresult := false; onstart := false; onend := false; onerror := false;
     _listening := false; _audioCtx := false; _mediaStream := None;
     _processor := false; _moduleLoaded := false; _modelData := false;
     _usingFallback := false; _fallbackShim := None |}.

Definition set_loading (modelData moduleLoaded : bool) (r : recognition) :=
  {| onresult := onresult r; onstart := onstart r; onend := onend r;
     onerror := onerror r; _listening := _listening r;
     _audioCtx := _audioCtx r; _mediaStream := _mediaStream r;
     _processor := _processor r; _moduleLoaded := moduleLoaded;
     _modelData := modelData; _usingFallback := _usingFallback r;
     _fallbackShim := _fallbackShim r |}.

Definition set_fallback (shim : fallback) (r : recognition) :=
  {| onresult := onresult r; onstart := onstart r; onend := onend r;
     onerror := onerror r; _listening := true;
     _audioCtx := _audioCtx r; _mediaStream := _mediaStream r;
     _processor := _processor r; _moduleLoaded := _moduleLoaded r;
     _modelData := _modelData r; _usingFallback := true;
     _fallbackShim := Some shim |}.

Definition set_audio (listening ctx : bool) (s : option mediaStream)
    (proc : bool) (r : recognition) :=
  {| onresult := onresult r; onstart := onstart r; onend := onend r;
     onerror := onerror r; _listening := listening;
     _audioCtx := ctx; _mediaStream := s;
     _processor := proc; _moduleLoaded := _moduleLoaded r;
     _modelData := _modelData r; _usingFallback := _usingFallback r;
     _fallbackShim := _fallbackShim r |}.

(** [handler && handler(...)]: the call, when the slot is filled.  The
    application's handlers are taken to return normally. *)
Definition fire (slot : bool) (e : event) : list event :=
  if slot then [e] else [].

Definition _initWhisper (p : platform) (r : recognition) : recognition * bool :=
  if _moduleLoaded r then (r, true)
  else if negb (_modelData r) && negb (modelFetches p) then (r, false)
  else if mainJsLoads p then (set_loading true true r, true)
  else (set_loading true false r, false).

(** One fallback block of [start] (lines 163-181 and 187-201): the state
    it leaves, the calls it makes, and whether it returned from [start]. *)
Definition tryFallback (what : string) (made : option fallback)
    (r : recognition) : recognition * list event * bool :=
  match made with
  | None => (r, [Warn what], false)
  | Some shim =>
      let r' := set_fallback shim r in
      let tr := (fire (onstart r) OnStart ++ [Beep])%list in
      if startThrows shim
      then (r', (tr ++ [Warn what])%list, false)
      else (r', (tr ++ [FallbackStart])%list, true)
  end.

Definition OfflineCtor (p : platform) : option (option fallback) :=
  match enhancedOfflineVoice p with
  | Some made => Some made
  | None => offlineVoice p
  end.

(** The microphone block (lines 205-227). *)
Definition openMicrophone (p : platform) (r : recognition)
  : recognition * list event :=
  match mic p with
  | ContextFails m =>
      (set_audio false (_audioCtx r) (_mediaStream r) (_processor r) r,
       fire (onerror r) (OnError m))
  | StreamFails m =>
      (set_audio false true (_mediaStream r) (_processor r) r,
       fire (onerror r) (OnError m))
  | GraphFails s m =>
      (set_audio false true (Some s) (_processor r) r,
       fire (onerror r) (OnError m))
  | ConnectFails s m =>
      (set_audio false true (Some s) true r,
       fire (onerror r) (OnError m))
  | Live s =>
      (set_audio true true (Some s) true r,
       (fire (onstart r) OnStart ++ [Beep])%list)
  end.

Definition start (p : platform) (r : recognition) : recognition * list event :=
  if _listening r then (r, [])
  else
    let (r0, ok) := _initWhisper p r in
    let '(r1, tr1, returned1) :=
      if ok then (r0, [], false)
      else match NativeRecognition p with
           | Some made =>
               tryFallback "Native SpeechRecognition fallback unavailable:" made r0
           | None => (r0, [], false)
           end in
    if returned1 then (r1, tr1)
    else
      let '(r2, tr2, returned2) :=
        if ok then (r1, [], false)
        else match OfflineCtor p with
             | Some made =>
                 tryFallback "Offline shim fallback unavailable:" made r1
             | None => (r1, [], false)
             end in
      if returned2 then (r2, (tr1 ++ tr2)%list)
      else
        let (r3, tr3) := openMicrophone p r2 in
        (r3, (tr1 ++ tr2 ++ tr3)%list).

Definition stop (r : recognition) : recognition * list event :=
  let tr1 :=
    if _usingFallback r then
      match _fallbackShim r with
      | Some shim => if hasStop shim then [FallbackStop] else []
      | None => []
      end
    else [] in
  let tr2 := if _processor r then [Disconnect] else [] in
  let tr3 := if _audioCtx r then [Close] else [] in
  let tr4 :=
    match _mediaStream r with
    | Some s =>
        match getTracks s with
        | Some n => repeat TrackStop n
        | None => []
        end
    | None => []
    end in
  (set_audio false false None false r,
   (tr1 ++ tr2 ++ tr3 ++ tr4 ++ fire (onend r) OnEnd)%list).

Definition abort (r : recognition) : recognition * list event := stop r.

End Shim.

(** ** Start-while-listening policies, and sample sessions *)

Module Policy.
Import Shim Recorder.

(** A no-op: the state is left as it was and nothing is called. *)
Definition shimIsNoOp : Prop :=
  forall p r, _listening r = true -> Shim.start p r = (r, []).

Definition recorderIsNoOp : Prop :=
  forall b v, isRecording v = true -> startWhisperRecognition b v = (v, []).

(** Stop first: the calls of the stop routine on the running session are
    among the calls made. *)
Definition shimStopsExisting : Prop :=
  forall p r, _listening r = true ->
    exists tr1 tr2, snd (Shim.start p r) = (tr1 ++ snd (Shim.stop r) ++ tr2)%list.

Definition recorderStopsExisting : Prop :=
  forall b v, isRecording v = true ->
    exists tr1 tr2,
      snd (startWhisperRecognition b v)
      = (tr1 ++ snd (stopWhisperRecognition v) ++ tr2)%list.

(** One policy, applied at both entry points. *)
Definition consistentPolicy : Prop :=
  (shimIsNoOp /\ recorderIsNoOp) \/ (shimStopsExisting /\ recorderStopsExisting).

(** A shim object with all four handlers installed. *)
Definition wired : recognition :=
  {| onresult := true; onstart := true; onend := true; onerror := true;
     _listening := false; _audioCtx := false; _mediaStream := None;
     _processor := false; _moduleLoaded := false; _modelData := false;
     _usingFallback := false; _fallbackShim := None |}.

(** The same object in the middle of a live microphone session. *)
Definition wiredListening : recognition :=
  {| onresult := true; onstart := true; onend := true; onerror := true;
     _listening := true; _audioCtx := true;
     _mediaStream := Some {| getTracks := Some 1 |};
     _processor := true; _moduleLoaded := true; _modelData := true;
     _usingFallback := false; _fallbackShim := None |}.

(** A platform on which the model cannot be fetched, there is neither a
    native recognizer nor an offline simulation, and the microphone works. *)
Definition noEngine : platform :=
  {| modelFetches := false; mainJsLoads := false;
     NativeRecognition := None;
     enhancedOfflineVoice := None; offlineVoice := None;
     mic := Live {| getTracks := Some 1 |} |}.

(** As [noEngine], with a native recognizer whose constructor throws and
    an offline simulation whose [start()] throws. *)
Definition brokenFallbacks : platform :=
  {| modelFetches := false; mainJsLoads := false;
     NativeRecognition := Some None;
     enhancedOfflineVoice := None;
     offlineVoice := Some (Some {| startThrows := true; hasStop := true |});
     mic := Live {| getTracks := Some 1 |} |}.

(** A recorder in the middle of a recording. *)
Definition recording : vars :=
  {| whisper := true; isRecording := true;
     audioContext := true; mediaRecorder := true |}.

Definition anyBrowser : browser :=
  {| WhisperDefined := true; scriptLoads := true;
     initResolves := true; getUserMedia := true |}.

(** The resources a shim object holds. *)
Definition holdsNothing (r : recognition) : Prop :=
  _processor r = false /\ _audioCtx r = false /\ _mediaStream r = None.

Definition event_eq_dec (x y : Shim.event) : {x = y} + {x <> y}.
Proof. decide equality; apply string_dec. Defined.

(** How often a call occurs among the calls made. *)
Definition count (e : Shim.event) (tr : list Shim.event) : nat :=
  count_occ event_eq_dec tr e.

(** The tracks of the stream a shim object holds. *)
Definition tracks (r : recognition) : nat :=
  match _mediaStream r with
  | Some s => match getTracks s with Some n => n | None => 0 end
  | None => 0
  end.

(** Whether [stop] has a fallback recognizer to stop. *)
Definition stoppableFallback (r : recognition) : bool :=
  _usingFallback r &&
  match _fallbackShim r with
  | Some shim => hasStop shim
  | None => false
  end.

End Policy.

(** ** The built-in table: which action belongs to which row *)

Module Table.
Import JsString Dispatcher.

(** The action a built-in invokes (lines 100-152). *)
Definition invokedBy (b : builtin) (a : action) : bool :=
  match b, a with
  | BStartTimer, StartTimer
  | BStopTimer, StopTimer
  | BResetTimer, ResetTimer
  | BStartJog, StartJogging
  | BStopJog, StopJogging
  | BLogExercise, HandleSmartExerciseLogging _
  | BStartTimerFor, HandleTimerForDuration _
  | BAddEntry, Click _
  | BSetActualReps, SetValue _ _
  | BShowProgress, ShowProgressView
  | BShowArchive, ShowArchiveView
  | BOpenSettings, ShowSettingsView
  | BGoHome, HideAllViews => true
  | _, _ => false
  end.

(** The place of a built-in in the if-chain. *)
Definition position (b : builtin) : nat :=
  match b with
  | BStartTimer => 0 | BStopTimer => 1 | BResetTimer => 2 | BStartJog => 3
  | BStopJog => 4 | BLogExercise => 5 | BStartTimerFor => 6 | BAddEntry => 7
  | BSetActualReps => 8 | BShowProgress => 9 | BShowArchive => 10
  | BOpenSettings => 11 | BGoHome => 12
  end.

(** A configuration on which [processCommand] has nothing to raise: the
    three phrases that are split on are non-empty, the page has the [type]
    element, and every automation carries a phrase. *)
Definition phrased (a : entry) : bool :=
  match commands a with
  | Some _ => true
  | None => truthy (command a) ||
            match name a with Some _ => true | None => false end
  end.

Definition wellFormed (w : world) : Prop :=
  logExercise (voice w) <> "" /\
  startTimerFor (voice w) <> "" /\
  setActualReps (voice w) <> "" /\
  getElementById w "type" <> None /\
  forallb phrased (automationSequences w) = true.

(** The sample table with three accidents of configuration: the timed
    start phrased as an extension of the plain start, the exercise phrase
    capitalised, and the add-entry phrase left empty. *)
Definition extendedCommands : voiceCommands :=
  {| startTimer := "start timer";   startTimerFeedback := "Timer started";
     stopTimer := "stop timer";     stopTimerFeedback := "Timer stopped";
     resetTimer := "reset timer";   resetTimerFeedback := "Timer reset";
     startJog := "start jogging";   startJogFeedback := "Jogging started";
     stopJog := "stop jogging";     stopJogFeedback := "Jogging stopped";
     logExercise := "Log exercise";
     startTimerFor := "start timer for";
     addEntry := "";                addEntryFeedback := "Entry added";
     setActualReps := "set actual reps";
     setActualRepsFeedback := "Actual reps set to";
     showProgress := "show progress";
     showArchive := "show archive";
     openSettings := "open settings";
     goHome := "go home";
     navigationFeedback := "Showing" |}.

Definition extendedWorld : world :=
  {| voice := extendedCommands;
     getElementById := samplePage;
     complexTasks := [byCommands ["Morning Routine"]];
     automationSequences := [] |}.

End Table.

(** ** Engine output: [_handleWhisperOutput] and the [print] hook *)

Module Output.
Import JsString Shim.

(** The event handed to [onresult]:
    [{ results: [{ 0: { transcript, confidence }, length: 1 }], resultIndex }]. *)
Record alternative := {
  transcript : string;
  confidence : QArith_base.Q
}.

Record speechEvent := {
  results : list (list alternative);
  resultIndex : nat
}.

(** [_handleWhisperOutput(line)]: the event [onresult] is called with,
    [None] when it is not called.  [line] is [None] for a falsy non-string
    ([line || '']). *)
Definition _handleWhisperOutput (r : recognition) (line : option string)
  : option speechEvent :=
  let trimmed := trim (match line with Some s => s | None => "" end) in
  match trimmed with
  | EmptyString => None
  | _ =>
      if onresult r then
        Some {| results :=
                  [[ {| transcript := toLowerCase trimmed;
                        confidence := QArith_base.Qmake 3%Z 4%positive |} ]];
                resultIndex := 0 |}
      else None
  end.

(** [Module.print]: only a string is passed on; [None] is any other value. *)
Definition print (r : recognition) (text : option string) : option speechEvent :=
  match text with
  | Some s => _handleWhisperOutput r (Some s)
  | None => None
  end.

(** A string that does not begin with a space. *)
Definition startsClean (s : string) : Prop :=
  match s with
  | EmptyString => True
  | String c _ => isSpace c = false
  end.

(** The code units of a string. *)
Fixpoint codeUnits (s : string) : list ascii :=
  match s with
  | EmptyString => []
  | String c s' => c :: codeUnits s'
  end.

(** The transcript an event carries, as the application reads it:
    [event.results[event.resultIndex][0].transcript]. *)
Definition heard (e : speechEvent) : option string :=
  match nth_error (results e) (resultIndex e) with
  | Some (alt :: _) => Some (transcript alt)
  | _ => None
  end.

End Output.

(** ** The recorder's [onstop] handler and its life cycle *)

Module Transcription.
Import JsString Dispatcher.

Section Chunks.
Variable chunk : Type.

(** The calls of the handler: status line, chat message, the engine, and
    the calls of [processCommand]. *)
Inductive event :=
| UpdateVoiceStatus (text kind : string)
| Transcribe (audioBlob : list chunk)
| AddVoiceMessage (role text : string)
| Dispatched (e : Dispatcher.event).

(** [mediaRecorder.ondataavailable] *)
Definition ondataavailable (audioChunks : list chunk) (data : chunk) : list chunk :=
  audioChunks ++ [data].

(** [mediaRecorder.onstop] (lines 62-78).  [transcribe] is what
    [whisper.transcribe] answers: [None] a rejection, [Some None] a value
    that is not a string, [Some (Some text)] a text.  A TypeError leaving
    [processCommand] is caught by the handler's own try/catch. *)
Definition onstop (w : world) (transcribe : list chunk -> option (option string))
    (audioChunks : list chunk) : list chunk * list event :=
  ([],
   [UpdateVoiceStatus "Transcribing..." "listening"; Transcribe audioChunks] ++
   match transcribe audioChunks with
   | None => [UpdateVoiceStatus "Transcription failed" "error"]
   | Some text =>
       if truthy text then
         let (calls, how) := processCommand w (toString text) in
         AddVoiceMessage "user" (toString text) :: map Dispatched calls ++
         match how with
         | Normal => [UpdateVoiceStatus "Whisper ready" "ready"]
         | TypeError => [UpdateVoiceStatus "Transcription failed" "error"]
         end
       else [UpdateVoiceStatus "Whisper ready" "ready"]
   end)%list.

(** The actions dispatched among the calls of the handler. *)
Fixpoint dispatchedActions (tr : list event) : list action :=
  match tr with
  | [] => []
  | Dispatched (Act a) :: rest => a :: dispatchedActions rest
  | _ :: rest => dispatchedActions rest
  end.

End Chunks.

Arguments UpdateVoiceStatus {chunk} text kind.
Arguments Transcribe {chunk} audioBlob.
Arguments AddVoiceMessage {chunk} role text.
Arguments Dispatched {chunk} e.
Arguments ondataavailable {chunk} audioChunks data.
Arguments onstop {chunk} w transcribe audioChunks.
Arguments dispatchedActions {chunk} tr.

End Transcription.

(** ** Sequences of calls on the recorder and on the shim *)

Module Session.
Import Shim Recorder.

(** The variables as whisper.js declares them. *)
Definition initial : vars :=
  {| whisper := false; isRecording := false;
     audioContext := false; mediaRecorder := false |}.

Inductive recorderCall :=
| Initialize (b : browser)
| StartRecognition (b : browser)
| StopRecognition.

Definition recorderStep (v : vars) (c : recorderCall) : vars :=
  match c with
  | Initialize b => fst (initializeWhisper b v)
  | StartRecognition b => fst (startWhisperRecognition b v)
  | StopRecognition => fst (stopWhisperRecognition v)
  end.

Definition afterCalls (cs : list recorderCall) : vars :=
  fold_left recorderStep cs initial.

(** While recording, the recorder and the audio context exist. *)
Definition recorderInvariant (v : vars) : bool :=
  implb (isRecording v) (mediaRecorder v && audioContext v).

(** What the application does with a shim object: it installs or removes
    handlers and calls the three methods. *)
Inductive shimCall :=
| SetHandlers (result start_ end_ error : bool)
| CallStart (p : platform)
| CallStop
| CallAbort.

Definition set_handlers (res sta en err : bool) (r : recognition) : recognition :=
  {| onresult := res; onstart := sta; onend := en; onerror := err;
     _listening := _listening r; _audioCtx := _audioCtx r;
     _mediaStream := _mediaStream r; _processor := _processor r;
     _moduleLoaded := _moduleLoaded r; _modelData := _modelData r;
     _usingFallback := _usingFallback r; _fallbackShim := _fallbackShim r |}.

Definition shimStep (r : recognition) (c : shimCall) : recognition :=
  match c with
  | SetHandlers res sta en err => set_handlers res sta en err r
  | CallStart p => fst (start p r)
  | CallStop => fst (stop r)
  | CallAbort => fst (abort r)
  end.

Definition afterShimCalls (cs : list shimCall) : recognition :=
  fold_left shimStep cs constructor.

(** What holds of the fields together. *)
Definition coherent (r : recognition) : Prop :=
  (_listening r = true -> _usingFallback r = true \/ _processor r = true) /\
  (_processor r = true -> _audioCtx r = true /\ _mediaStream r <> None) /\
  (_mediaStream r <> None -> _audioCtx r = true) /\
  (_usingFallback r = true <-> _fallbackShim r <> None) /\
  (_moduleLoaded r = true -> _modelData r = true).

(** A platform with a working native recognizer. *)
Definition nativeOnly : platform :=
  {| modelFetches := false; mainJsLoads := false;
     NativeRecognition := Some (Some {| startThrows := false; hasStop := true |});
     enhancedOfflineVoice := Some (Some {| startThrows := false; hasStop := true |});
     offlineVoice := None;
     mic := Live {| getTracks := Some 1 |} |}.

(** A platform on which everything fails, the microphone included. *)
Definition nothingWorks : platform :=
  {| modelFetches := false; mainJsLoads := false;
     NativeRecognition := None;
     enhancedOfflineVoice := None; offlineVoice := None;
     mic := StreamFails "Permission denied" |}.

(** A platform on which the engine loads. *)
Definition engineLoads : platform :=
  {| modelFetches := true; mainJsLoads := true;
     NativeRecognition := Some (Some {| startThrows := false; hasStop := true |});
     enhancedOfflineVoice := None; offlineVoice := None;
     mic := Live {| getTracks := Some 2 |} |}.

Definition failingInit : browser :=
  {| WhisperDefined := true; scriptLoads := true;
     initResolves := false; getUserMedia := true |}.

End Session.

(** * Properties *)

(** ** Facts about the string primitives *)

Section StringFacts.
Import JsString.

Lemma lowerUnit_idempotent (c : ascii) : lowerUnit (lowerUnit c) = lowerUnit c.
Proof.
  destruct c as [[] [] [] [] [] [] [] []]; reflexivity.
Qed.

Lemma toLowerCase_idempotent (s : string) :
  toLowerCase (toLowerCase s) = toLowerCase s.
Proof.
  induction s as [|c s IH]; simpl.
  - reflexivity.
  - now rewrite lowerUnit_idempotent, IH.
Qed.

Lemma prefix_split (p s : string) :
  prefix p s = true -> s = p ++ drop (length p) s.
Proof.
  revert s; induction p as [|c p IH]; intros s H.
  - reflexivity.
  - destruct s as [|d s]; simpl in H; [discriminate|].
    destruct (ascii_dec c d) as [->|]; [|discriminate].
    simpl. f_equal. now apply IH.
Qed.

Lemma prefix_append (p a : string) : prefix p (p ++ a) = true.
Proof.
  induction p as [|c p IH]; simpl.
  - now destruct a.
  - destruct (ascii_dec c c); [assumption|congruence].
Qed.

Lemma prefix_nonempty_empty (p : string) : p <> "" -> prefix p "" = false.
Proof. destruct p; [congruence|reflexivity]. Qed.

Lemma length_append (a b : string) : length (a ++ b) = length a + length b.
Proof. induction a; simpl; auto. Qed.

Lemma length_drop (n : nat) (s : string) : length (drop n s) = length s - n.
Proof.
  revert s; induction n as [|n IH]; intros [|c s]; simpl; auto.
Qed.

Lemma cut_eq (p s : string) :
  cut p s =
    if prefix p s then Some ("", drop (length p) s)
    else match s with
         | EmptyString => None
         | String c s' =>
             match cut p s' with
             | Some (b, a) => Some (String c b, a)
             | None => None
             end
         end.
Proof. destruct s; reflexivity. Qed.

(** [cut] finds an occurrence ... *)
Lemma cut_sound (p s b a : string) :
  cut p s = Some (b, a) -> s = b ++ p ++ a.
Proof.
  revert b; induction s as [|c s IH]; intros b H; rewrite cut_eq in H;
    destruct (prefix p _) eqn:E.
  - injection H as <- <-. now apply prefix_split in E.
  - discriminate.
  - injection H as <- <-. now apply prefix_split in E.
  - destruct (cut p s) as [[b0 a0]|] eqn:C; [|discriminate].
    injection H as <- <-. simpl. f_equal. now apply IH.
Qed.

(** ... the leftmost one ... *)
Lemma cut_first (p s b a : string) :
  cut p s = Some (b, a) ->
  forall b' a', s = b' ++ p ++ a' -> length b <= length b'.
Proof.
  revert b; induction s as [|c s IH]; intros b H b' a' Hs; rewrite cut_eq in H;
    destruct (prefix p _) eqn:E.
  - injection H as <- <-. simpl. lia.
  - discriminate.
  - injection H as <- <-. simpl. lia.
  - destruct (cut p s) as [[b0 a0]|] eqn:C; [|discriminate].
    injection H as <- <-.
    destruct b' as [|d b'].
    + simpl in Hs. rewrite Hs, prefix_append in E. discriminate.
    + simpl in Hs. injection Hs as _ Hs. simpl.
      apply le_n_S. eapply IH; eauto.
Qed.

(** ... and fails only when there is none. *)
Lemma cut_complete (p s : string) :
  cut p s = None -> forall b a, s <> b ++ p ++ a.
Proof.
  induction s as [|c s IH]; intros H b a Hs; rewrite cut_eq in H;
    destruct (prefix p _) eqn:E; try discriminate.
  - destruct b; [|discriminate]. simpl in Hs.
    rewrite Hs, prefix_append in E. discriminate.
  - destruct (cut p s) as [[b0 a0]|] eqn:C; [discriminate|].
    destruct b as [|d b].
    + simpl in Hs. rewrite Hs, prefix_append in E. discriminate.
    + simpl in Hs. injection Hs as _ Hs. eapply IH; eauto.
Qed.

Lemma cut_length (p s b a : string) :
  cut p s = Some (b, a) -> length s = length b + length p + length a.
Proof.
  intros H. apply cut_sound in H. subst s.
  rewrite !length_append. lia.
Qed.

Lemma cut_self (p : string) : cut p p = Some ("", "").
Proof.
  assert (D : drop (length p) p = "").
  { induction p as [|c p IH]; [reflexivity|exact IH]. }
  assert (E : prefix p p = true).
  { induction p as [|c p IH]; simpl; [reflexivity|].
    destruct (ascii_dec c c); [auto|congruence]. }
  rewrite cut_eq, E, D. reflexivity.
Qed.

Lemma cut_nonempty_empty (p : string) : p <> "" -> cut p "" = None.
Proof. intros H. rewrite cut_eq. now rewrite prefix_nonempty_empty. Qed.

(** The bound on the rounds of [splitLoop] is never reached. *)
Lemma splitLoop_enough (sep : string) :
  sep <> "" ->
  forall n m s, length s <= n -> length s <= m ->
                splitLoop n sep s = splitLoop m sep s.
Proof.
  intros Hsep. induction n as [|n IH]; intros m s Hn Hm.
  - destruct s; [|simpl in Hn; lia].
    destruct m; cbn [splitLoop]; now rewrite cut_nonempty_empty.
  - destruct m as [|m].
    + destruct s; [|simpl in Hm; lia].
      cbn [splitLoop]; now rewrite cut_nonempty_empty.
    + cbn [splitLoop]. destruct (cut sep s) as [[b a]|] eqn:C; [|reflexivity].
      f_equal. pose proof (cut_length _ _ _ _ C) as L.
      assert (0 < length sep) by (destruct sep; [congruence|simpl; lia]).
      apply IH; lia.
Qed.

(** [split] round by round, for a non-empty separator. *)
Lemma split_unfold (s sep : string) :
  sep <> "" ->
  split s sep =
    match cut sep s with
    | None => [s]
    | Some (b, a) => b :: split a sep
    end.
Proof.
  intros Hsep. unfold split.
  destruct sep as [|c sep]; [congruence|].
  destruct s as [|d s].
  - cbn [length splitLoop]. now rewrite cut_nonempty_empty.
  - cbn [length splitLoop].
    destruct (cut (String c sep) (String d s)) as [[b a]|] eqn:C; [|reflexivity].
    f_equal. pose proof (cut_length _ _ _ _ C) as L. simpl in L.
    apply splitLoop_enough; [congruence| |]; lia.
Qed.

End StringFacts.

(** ** The dispatcher *)

Section DispatcherFacts.
Import JsString Dispatcher.

Lemma in_table (b : builtin) : In b table.
Proof. destruct b; simpl; tauto. Qed.

Lemma firstBuiltin_some (c : voiceCommands) (t : string) (b : builtin) :
  firstBuiltin c t = Some b -> includes t (trigger c b) = true.
Proof. intros H. now apply find_some in H. Qed.

Lemma firstBuiltin_none (c : voiceCommands) (t : string) :
  firstBuiltin c t = None -> forall b, includes t (trigger c b) = false.
Proof.
  intros H b. exact (find_none _ _ H b (in_table b)).
Qed.

Lemma firstBuiltin_found (c : voiceCommands) (t : string) (b : builtin) :
  includes t (trigger c b) = true -> exists b', firstBuiltin c t = Some b'.
Proof.
  intros H. destruct (firstBuiltin c t) as [b'|] eqn:F; [eauto|].
  rewrite (firstBuiltin_none _ _ F b) in H. discriminate.
Qed.

(** The two loops are searches for the first matching entry. *)
Lemma forComplexTasks_find (t : string) (tasks : list entry) :
  forComplexTasks t tasks =
    match find (taskMatches t) tasks with
    | Some task => ([Act (ExecuteComplexTask task)], true)
    | None => ([], false)
    end.
Proof.
  induction tasks as [|task rest IH]; simpl; [reflexivity|].
  destruct (taskMatches t task); [reflexivity|exact IH].
Qed.

Lemma forAutomations_first (t : string) (autos : list entry) :
  forAutomations t autos =
    match firstAutomation t autos with
    | None => None
    | Some (Some a) => Some ([Act (ExecuteAutomationSequence a)], true)
    | Some None => Some ([], false)
    end.
Proof.
  induction autos as [|a rest IH]; simpl; [reflexivity|].
  destruct (automationMatches t a) as [[|]|]; [reflexivity|exact IH|reflexivity].
Qed.

Lemma otherwise_eq (w : world) (t : string) :
  otherwise w t =
    match find (taskMatches t) (complexTasks w) with
    | Some task => ([Act (ExecuteComplexTask task)], Normal)
    | None =>
        match firstAutomation t (automationSequences w) with
        | None => ([], TypeError)
        | Some (Some a) => ([Act (ExecuteAutomationSequence a)], Normal)
        | Some None => ([SpeakFeedback notRecognized None], Normal)
        end
    end.
Proof.
  unfold otherwise. rewrite forComplexTasks_find.
  destruct (find (taskMatches t) (complexTasks w)); [reflexivity|].
  rewrite forAutomations_first.
  destruct (firstAutomation t (automationSequences w)) as [[a|]|]; reflexivity.
Qed.

(** The if-chain of [processCommand] is the table-driven dispatch. *)
Lemma processCommand_eq (w : world) (transcript : string) :
  processCommand w transcript = dispatchByPriority w transcript.
Proof.
  unfold processCommand, dispatchByPriority, firstBuiltin, table.
  cbn [find trigger].
  set (t := toLowerCase transcript).
  repeat match goal with
         | |- context [includes t ?p] =>
             destruct (includes t p);
             [ cbn [perform];
               repeat match goal with
                      | |- context [match ?x with _ => _ end] => destruct x
                      end; reflexivity | ]
         end.
  apply otherwise_eq.
Qed.

Lemma perform_actions (w : world) (t : string) (b : builtin) :
  List.length (actions (fst (perform w t b))) <= 1 /\
  forall a, In a (actions (fst (perform w t b))) ->
    (forall e, a <> ExecuteComplexTask e) /\
    (forall e, a <> ExecuteAutomationSequence e) /\
    forall p x, argumentOf (voice w) a = Some (p, x) ->
                p = trigger (voice w) b /\ extractArg t p = Some x.
Proof.
  destruct b; cbn [perform trigger];
    repeat match goal with
           | |- context [match ?x with _ => _ end] => destruct x eqn:?
           end;
    (split; [simpl; lia|]);
    intros a Ha; simpl in Ha;
    repeat (destruct Ha as [<-|Ha]); try contradiction;
    (split; [intros; discriminate|]);
    (split; [intros; discriminate|]);
    intros p x Hx; simpl in Hx; try discriminate;
    injection Hx as <- <-; auto.
Qed.

(** For a non-empty separator that occurs, [split] has a second piece: the
    text up to the next occurrence behind the first. *)
Lemma split_second_piece (t p : string) :
  p <> "" -> includes t p = true ->
  exists b rest piece,
    cut p t = Some (b, rest) /\
    piece = match cut p rest with Some (seg, _) => seg | None => rest end /\
    exists more, split t p = b :: piece :: more.
Proof.
  intros Hp H. unfold includes in H.
  destruct (cut p t) as [[b rest]|] eqn:C; [|discriminate].
  exists b, rest. eexists. split; [reflexivity|]. split; [reflexivity|].
  rewrite (split_unfold t p Hp), C, (split_unfold rest p Hp).
  destruct (cut p rest) as [[seg a]|]; eauto.
Qed.

Lemma extractArg_segment (t p x : string) :
  p <> "" -> includes t p = true ->
  extractArg t p = Some x -> trimmedSegment t p = Some x.
Proof.
  intros Hp H E.
  destruct (split_second_piece t p Hp H) as (b & rest & piece & C & P & more & S).
  unfold extractArg in E. rewrite S in E. simpl in E. injection E as <-.
  unfold trimmedSegment. rewrite C, P.
  destruct (cut p rest) as [[seg a]|]; reflexivity.
Qed.

End DispatcherFacts.

(** ** The claims about the dispatcher *)

Section DispatcherClaims.
Import JsString Dispatcher.

(** C1: for every transcript and every configuration, [processCommand]
    is the dispatch in fixed priority order (built-ins in table order, then
    complex tasks, then automation sequences, first match wins); it invokes
    at most one action; a transcript containing a built-in phrase fires
    neither a complex task nor an automation, and one matching a complex
    task fires no automation. *)
Theorem first_match_wins (w : world) (transcript : string) :
  processCommand w transcript = dispatchByPriority w transcript /\
  List.length (actions (fst (processCommand w transcript))) <= 1 /\
  (forall b e,
      includes (toLowerCase transcript) (trigger (voice w) b) = true ->
      ~ In (ExecuteComplexTask e) (actions (fst (processCommand w transcript))) /\
      ~ In (ExecuteAutomationSequence e)
           (actions (fst (processCommand w transcript)))) /\
  (forall task e,
      In task (complexTasks w) ->
      taskMatches (toLowerCase transcript) task = true ->
      ~ In (ExecuteAutomationSequence e)
           (actions (fst (processCommand w transcript)))).
Proof.
  split; [apply processCommand_eq|].
  rewrite processCommand_eq. unfold dispatchByPriority.
  set (t := toLowerCase transcript).
  split; [|split].
  - destruct (firstBuiltin (voice w) t) as [b|].
    + apply perform_actions.
    + destruct (find (taskMatches t) (complexTasks w)); [simpl; lia|].
      destruct (firstAutomation t (automationSequences w)) as [[a|]|];
        simpl; lia.
  - intros b e Hb.
    destruct (firstBuiltin_found _ _ _ Hb) as [b' ->].
    split; intros Hin;
      destruct (proj2 (perform_actions w t b') _ Hin) as (H1 & H2 & _);
      [eapply H1|eapply H2]; reflexivity.
  - intros task e Hin Hm.
    destruct (firstBuiltin (voice w) t) as [b|].
    + intros Ha.
      destruct (proj2 (perform_actions w t b) _ Ha) as (_ & H2 & _).
      eapply H2; reflexivity.
    + destruct (find (taskMatches t) (complexTasks w)) as [task'|] eqn:F.
      * simpl. intros [H|[]]. discriminate.
      * rewrite (find_none _ _ F task Hin) in Hm. discriminate.
Qed.

Lemma first_match_wins_witness :
  includes (toLowerCase "Start Timer, then Morning Routine")
           (trigger (voice sampleWorld) BStartTimer) = true /\
  forall e,
    ~ In (ExecuteComplexTask e)
         (actions (fst (processCommand sampleWorld
                          "Start Timer, then Morning Routine"))).
Proof.
  split; [reflexivity|].
  intros e.
  apply (proj1 (proj2 (proj2 (first_match_wins sampleWorld
                                "Start Timer, then Morning Routine")))
           BStartTimer e).
  reflexivity.
Defined.

(** What the extraction yields in general: whenever an argument-taking
    built-in (log exercise, start timer for, set actual reps) with a
    non-empty phrase passes an argument, it is the trimmed text between the
    first occurrence of the phrase and the next occurrence behind it; when
    the phrase does not occur again this is the trimmed remainder, and when
    the phrase is the whole transcript it is the empty string. *)
Lemma argument_is_trimmed_segment
    (w : world) (transcript : string) (a : action) (phrase x : string) :
  In a (actions (fst (processCommand w transcript))) ->
  argumentOf (voice w) a = Some (phrase, x) ->
  phrase <> "" ->
  trimmedSegment (toLowerCase transcript) phrase = Some x /\
  (forall b rest,
      cut phrase (toLowerCase transcript) = Some (b, rest) ->
      includes rest phrase = false ->
      trimmedRemainder (toLowerCase transcript) phrase = Some x) /\
  (toLowerCase transcript = phrase -> x = "").
Proof.
  intros Hin Harg Hp.
  rewrite processCommand_eq in Hin. unfold dispatchByPriority in Hin.
  set (t := toLowerCase transcript) in *.
  assert (S : trimmedSegment t phrase = Some x).
  { destruct (firstBuiltin (voice w) t) as [b|] eqn:F.
    - destruct (proj2 (perform_actions w t b) _ Hin) as (_ & _ & H).
      destruct (H _ _ Harg) as [-> E].
      apply extractArg_segment; auto. now apply firstBuiltin_some.
    - destruct (find (taskMatches t) (complexTasks w)).
      + simpl in Hin. destruct Hin as [<-|[]]. discriminate.
      + destruct (firstAutomation t (automationSequences w)) as [[e|]|];
          simpl in Hin; try contradiction.
        destruct Hin as [<-|[]]. discriminate. }
  split; [exact S|]. split.
  - intros b rest C N. unfold trimmedRemainder. rewrite C. simpl.
    unfold trimmedSegment in S. rewrite C in S.
    unfold includes in N. destruct (cut phrase rest); [discriminate|exact S].
  - intros E. unfold trimmedSegment in S.
    rewrite E, cut_self, (cut_nonempty_empty _ Hp) in S.
    now injection S.
Qed.

(** C2: the argument passed to an argument-taking built-in is meant to be
    the trimmed remainder behind the first occurrence of its phrase.  With
    the phrase said once it is ("log exercise pushups" passes "pushups",
    "log exercise" alone passes the empty string); with the phrase said
    again, [split(phrase)[1]] keeps only the text up to the second
    occurrence, and the rest of the transcript is lost. *)
Theorem repeated_phrase_truncates_argument :
  processCommand sampleWorld "log exercise pushups"
  = ([Act (HandleSmartExerciseLogging "pushups")], Normal) /\
  processCommand sampleWorld "log exercise"
  = ([Act (HandleSmartExerciseLogging "")], Normal) /\
  processCommand sampleWorld "log exercise pushups log exercise squats"
  = ([Act (HandleSmartExerciseLogging "pushups")], Normal) /\
  trimmedRemainder (toLowerCase "log exercise pushups log exercise squats")
                   "log exercise"
  = Some "pushups log exercise squats" /\
  ~ argumentIsRemainder.
Proof.
  repeat (split; [reflexivity|]).
  intros H.
  specialize (H sampleWorld "log exercise pushups log exercise squats"
                (HandleSmartExerciseLogging "pushups")
                "log exercise" "pushups").
  assert (E : trimmedRemainder
                (toLowerCase "log exercise pushups log exercise squats")
                "log exercise" = Some "pushups") by (apply H; simpl; auto).
  vm_compute in E. discriminate.
Qed.

(** C3, as stated, fails: "add entry" on a page without the add button
    completes normally with no call at all. *)
Lemma add_entry_can_be_silent : ~ neverSilent.
Proof.
  intros H. apply (H bareWorld "add entry"). reflexivity.
Qed.

(** C3, amended: a dispatch that completes without raising invokes an
    action or speaks a feedback, except behind the two guards of the code:
    the add-entry built-in is selected and the page has no add button, or
    the set-actual-reps built-in is selected and no reps field is resolved
    (the type is neither reps nor semi, or the field is missing). *)
Theorem silent_only_behind_guards (w : world) (transcript : string) :
  snd (processCommand w transcript) = Normal ->
  fst (processCommand w transcript) = [] ->
  (firstBuiltin (voice w) (toLowerCase transcript) = Some BAddEntry /\
   getElementById w "addEntry" = None) \/
  (firstBuiltin (voice w) (toLowerCase transcript) = Some BSetActualReps /\
   exists type, getElementById w "type" = Some type /\
                repsField w type = None).
Proof.
  rewrite processCommand_eq. unfold dispatchByPriority.
  set (t := toLowerCase transcript).
  destruct (firstBuiltin (voice w) t) as [b|].
  - destruct b; cbn [perform];
      repeat match goal with
             | |- context [match ?x with _ => _ end] => destruct x eqn:?
             end;
      simpl; intros HN HE; try discriminate.
    + left. auto.
    + right. split; [reflexivity|]. eauto.
  - destruct (find (taskMatches t) (complexTasks w)); [simpl; discriminate|].
    destruct (firstAutomation t (automationSequences w)) as [[a|]|];
      simpl; discriminate.
Qed.

Lemma silent_only_behind_guards_witness :
  (firstBuiltin (voice bareWorld) (toLowerCase "Add Entry") = Some BAddEntry /\
   getElementById bareWorld "addEntry" = None) \/
  (firstBuiltin (voice bareWorld) (toLowerCase "Add Entry")
   = Some BSetActualReps /\
   exists type, getElementById bareWorld "type" = Some type /\
                repsField bareWorld type = None).
Proof.
  apply (silent_only_behind_guards bareWorld "Add Entry"); reflexivity.
Defined.

(** C6: a transcript that contains no built-in phrase, matches no complex
    task and matches no automation sequence produces exactly the "command
    not recognized" feedback, and no action. *)
Theorem unmatched_not_recognized (w : world) (transcript : string) :
  (forall b, includes (toLowerCase transcript) (trigger (voice w) b) = false) ->
  Forall (fun task => taskMatches (toLowerCase transcript) task = false)
         (complexTasks w) ->
  Forall (fun a => automationMatches (toLowerCase transcript) a = Some false)
         (automationSequences w) ->
  processCommand w transcript = ([SpeakFeedback notRecognized None], Normal) /\
  actions (fst (processCommand w transcript)) = [].
Proof.
  intros Hb Ht Ha.
  assert (E : processCommand w transcript
              = ([SpeakFeedback notRecognized None], Normal)).
  { rewrite processCommand_eq. unfold dispatchByPriority.
    set (t := toLowerCase transcript) in *.
    destruct (firstBuiltin (voice w) t) as [b|] eqn:F.
    { apply firstBuiltin_some in F. rewrite Hb in F. discriminate. }
    destruct (find (taskMatches t) (complexTasks w)) as [task|] eqn:G.
    { apply find_some in G. destruct G as [Hin Hm].
      rewrite Forall_forall in Ht. rewrite (Ht _ Hin) in Hm. discriminate. }
    assert (A : firstAutomation t (automationSequences w) = Some None).
    { induction Ha as [|a rest Hx _ IH]; simpl; [reflexivity|].
      now rewrite Hx. }
    now rewrite A. }
  split; [exact E|]. now rewrite E.
Qed.

Lemma unmatched_not_recognized_witness :
  processCommand sampleWorld "xyzzy"
  = ([SpeakFeedback notRecognized None], Normal) /\
  actions (fst (processCommand sampleWorld "xyzzy")) = [].
Proof.
  apply (unmatched_not_recognized sampleWorld "xyzzy").
  - intros b; destruct b; reflexivity.
  - repeat constructor.
  - repeat constructor.
Defined.


(** On the shapes the two loops share (a [commands] list, or a non-empty
    [command]) the two tests agree, and so they do on a fallback phrase
    that is already lower-case. *)
Lemma matching_agrees_on_phrases (t : string) (e : entry) :
  commands e <> None \/ truthy (command e) = true ->
  automationMatches t e = Some (taskMatches t e).
Proof.
  unfold automationMatches, taskMatches.
  destruct (commands e) as [cmds|]; [reflexivity|].
  intros [H|H]; [congruence|]. now rewrite H.
Qed.

Lemma matching_agrees_on_lowercase_fallback (t p : string) :
  toLowerCase p = p ->
  automationMatches t (byName p) = Some (taskMatches t (byPrimaryCommand p)).
Proof.
  intros H. unfold automationMatches, taskMatches. simpl. now rewrite H.
Qed.

(** An entry without any phrase is compared with the text "undefined" by
    the complex-task loop and raises in the automation loop. *)
Example unnamed_entry :
  taskMatches "undefined behaviour" unnamed = true /\
  automationMatches "undefined behaviour" unnamed = None /\
  processCommand (automationWorld unnamed) "xyzzy" = ([], TypeError).
Proof. repeat split. Qed.

(** C7: the two loops do not apply one predicate.  A complex task known
    by [primaryCommand: "Morning Routine"] is compared without lowering the
    phrase and never matches the lowered transcript, while the automation
    known by [name: "Morning Routine"] matches. *)
Theorem fallback_phrase_handling_differs :
  taskMatches "morning routine" (byPrimaryCommand "Morning Routine") = false /\
  automationMatches "morning routine" (byName "Morning Routine") = Some true /\
  processCommand (taskWorld (byPrimaryCommand "Morning Routine")) "Morning Routine"
  = ([SpeakFeedback notRecognized None], Normal) /\
  processCommand (automationWorld (byName "Morning Routine")) "Morning Routine"
  = ([Act (ExecuteAutomationSequence (byName "Morning Routine"))], Normal) /\
  ~ samePredicate.
Proof.
  repeat (split; [reflexivity|]).
  intros H.
  specialize (H "morning routine" (byPrimaryCommand "Morning Routine")).
  vm_compute in H. discriminate.
Qed.

(** C9: [processCommand] lowers its input itself, so dispatching a
    transcript and dispatching its lower-case form are the same run. *)
Theorem dispatch_ignores_case (w : world) (transcript : string) :
  processCommand w (toLowerCase transcript) = processCommand w transcript.
Proof.
  unfold processCommand. now rewrite toLowerCase_idempotent.
Qed.

(** C10: for a non-empty phrase contained in the transcript,
    [split(phrase)] has at least two pieces, so [split(phrase)[1]] is
    defined and the extraction never calls [trim] on an absent value. *)
Theorem split_index_one_defined (transcript phrase : string) :
  phrase <> "" ->
  includes transcript phrase = true ->
  2 <= List.length (split transcript phrase) /\
  exists piece,
    nth_error (split transcript phrase) 1 = Some piece /\
    extractArg transcript phrase = Some (trim piece).
Proof.
  intros Hp H.
  destruct (split_second_piece _ _ Hp H) as (b & rest & piece & _ & _ & more & S).
  unfold extractArg. rewrite S. simpl.
  split; [lia|]. eauto.
Qed.

Lemma split_index_one_defined_witness :
  2 <= List.length (split "log exercise pushups" "log exercise") /\
  exists piece,
    nth_error (split "log exercise pushups" "log exercise") 1 = Some piece /\
    extractArg "log exercise pushups" "log exercise" = Some (trim piece).
Proof.
  apply (split_index_one_defined "log exercise pushups" "log exercise").
  - discriminate.
  - reflexivity.
Defined.

End DispatcherClaims.

(** ** The claims about the shim and the recorder *)

Section SessionClaims.
Import Shim Recorder Policy.

(** Once the engine and both fallbacks are out, [start] runs on into the
    microphone block; with a working microphone the object ends up
    listening and no error is reported. *)
Lemma exhausted_chain_opens_microphone (p : platform) (r : recognition)
    (s : mediaStream) :
  _listening r = false ->
  snd (_initWhisper p r) = false ->
  (NativeRecognition p = None \/ NativeRecognition p = Some None) ->
  (OfflineCtor p = None \/ OfflineCtor p = Some None) ->
  mic p = Live s ->
  _listening (fst (start p r)) = true /\
  forall m, ~ In (OnError m) (snd (start p r)).
Proof.
  intros HL HI HN HO HM. unfold start. rewrite HL.
  destruct (_initWhisper p r) as [r0 ok]. simpl in HI. subst ok.
  unfold openMicrophone.
  destruct HN as [-> | ->], HO as [-> | ->]; simpl; rewrite HM; simpl;
    (split; [reflexivity|]);
    intros m; destruct (onstart r0); simpl; intuition discriminate.
Qed.

(** With the microphone failing as well, the error is reported. *)
Lemma exhausted_chain_reports_microphone_failure (p : platform)
    (r : recognition) (m : string) :
  _listening r = false ->
  onerror r = true ->
  snd (_initWhisper p r) = false ->
  NativeRecognition p = None ->
  OfflineCtor p = None ->
  mic p = StreamFails m ->
  _listening (fst (start p r)) = false /\
  snd (start p r) = [OnError m].
Proof.
  intros HL HE HI HN HO HM. unfold start. rewrite HL.
  assert (E : onerror (fst (_initWhisper p r)) = true).
  { unfold _initWhisper.
    repeat match goal with |- context [if ?c then _ else _] => destruct c end;
      exact HE. }
  destruct (_initWhisper p r) as [r0 ok]. simpl in HI, E. subst ok.
  rewrite HN, HO. unfold openMicrophone. rewrite HM. simpl.
  rewrite E. auto.
Qed.

(** C4: when the whisper engine, the native recognizer and the offline
    simulation all fail, [start] does not stop with an error: it opens the
    microphone, and with a working microphone ends listening, having
    called [onstart] and never [onerror].  After fallbacks that failed
    half-way, [onstart] has been called twice and the failed fallback
    stays recorded as in use. *)
Theorem start_without_engine_goes_live :
  _listening (fst (start noEngine wired)) = true /\
  snd (start noEngine wired) = [OnStart; Beep] /\
  _listening (fst (start brokenFallbacks wired)) = true /\
  _usingFallback (fst (start brokenFallbacks wired)) = true /\
  snd (start brokenFallbacks wired)
  = [Warn "Native SpeechRecognition fallback unavailable:";
     OnStart; Beep; Warn "Offline shim fallback unavailable:";
     OnStart; Beep].
Proof. repeat split. Qed.

(** C5: from every state of the object, [stop] (and [abort], which is
    [stop]) releases what the object holds: the processor is disconnected,
    the audio context closed, every track of the stream stopped, each
    once, and the three fields are reset; a fallback recognizer in use is
    stopped; [_listening] is cleared; the last call is [onend], made once
    by [stop] itself whenever a handler is installed.  Stopping again
    releases nothing more and leaves the state as it is, and after any
    [start] a [stop] leaves no resource behind. *)
Theorem stop_releases_everything (r : recognition) :
  holdsNothing (fst (stop r)) /\
  _listening (fst (stop r)) = false /\
  abort r = stop r /\
  count Disconnect (snd (stop r)) = (if _processor r then 1 else 0) /\
  count Close (snd (stop r)) = (if _audioCtx r then 1 else 0) /\
  count TrackStop (snd (stop r)) = tracks r /\
  count FallbackStop (snd (stop r)) = (if stoppableFallback r then 1 else 0) /\
  (exists tr, snd (stop r) = (tr ++ fire (onend r) OnEnd)%list /\
              count OnEnd tr = 0) /\
  count OnEnd (snd (stop r)) = (if onend r then 1 else 0) /\
  fst (stop (fst (stop r))) = fst (stop r) /\
  count Disconnect (snd (stop (fst (stop r)))) = 0 /\
  count Close (snd (stop (fst (stop r)))) = 0 /\
  count TrackStop (snd (stop (fst (stop r)))) = 0 /\
  forall p, holdsNothing (fst (stop (fst (start p r)))) /\
            _listening (fst (stop (fst (start p r)))) = false.
Proof.
  assert (T : forall n, count_occ event_eq_dec (repeat TrackStop n) TrackStop = n)
    by (intros n; now apply count_occ_repeat_eq).
  assert (T' : forall e n, e <> TrackStop ->
                           count_occ event_eq_dec (repeat TrackStop n) e = 0)
    by (intros e n He; now apply count_occ_repeat_neq).
  destruct r as [res sta en err lis ctx ms proc ml md uf fs].
  unfold stop, abort, holdsNothing, tracks, stoppableFallback, count in *.
  cbn [fst snd set_audio _processor _audioCtx _mediaStream _listening
       _usingFallback _fallbackShim onend].
  repeat split.
  all: try (rewrite !count_occ_app;
            destruct uf, fs as [[st [|]]|], proc, ctx, ms as [[[n|]]|], en;
            cbn [count_occ fire hasStop getTracks andb];
            try rewrite T; try rewrite T' by discriminate;
            repeat match goal with
                   | |- context [event_eq_dec ?a ?b] =>
                       destruct (event_eq_dec a b); try congruence
                   end; lia).
  eexists. split; [rewrite !app_assoc; reflexivity|].
  rewrite !count_occ_app.
  destruct uf, fs as [[st [|]]|], proc, ctx, ms as [[[n|]]|];
    cbn [count_occ fire hasStop getTracks andb];
    try rewrite T' by discriminate;
    repeat match goal with
           | |- context [event_eq_dec ?a ?b] =>
               destruct (event_eq_dec a b); try congruence
           end; lia.
Qed.

(** C8, as stated, fails: the two entry points apply different policies. *)
Lemma policies_are_not_consistent : ~ consistentPolicy.
Proof.
  intros [[_ H] | [H _]].
  - specialize (H anyBrowser recording eq_refl). discriminate.
  - destruct (H noEngine wiredListening eq_refl) as (tr1 & tr2 & E).
    vm_compute in E.
    destruct tr1; simpl in E; discriminate.
Qed.

(** C8, amended: while a session is listening, the shim's [start()] is a
    no-op (state unchanged, nothing called), whereas
    [startWhisperRecognition] stops the running recorder, clears
    [isRecording] and starts nothing new. *)
Theorem start_while_listening_policies :
  shimIsNoOp /\
  forall b v,
    isRecording v = true -> mediaRecorder v = true ->
    isRecording (fst (startWhisperRecognition b v)) = false /\
    In RecorderStop (snd (startWhisperRecognition b v)) /\
    ~ In RecorderStart (snd (startWhisperRecognition b v)).
Proof.
  split.
  - intros p r H. unfold start. now rewrite H.
  - intros b [w rec ac mr] HR HM. simpl in HR, HM. subst rec mr.
    unfold startWhisperRecognition, initializeWhisper, stopWhisperRecognition.
    destruct w, (WhisperDefined b), (scriptLoads b), (initResolves b); simpl;
      intuition discriminate.
Qed.

Lemma start_while_listening_policies_witness :
  start noEngine wiredListening = (wiredListening, []) /\
  isRecording (fst (startWhisperRecognition anyBrowser recording)) = false.
Proof.
  split.
  - apply (proj1 start_while_listening_policies noEngine wiredListening).
    reflexivity.
  - apply (proj2 start_while_listening_policies anyBrowser recording);
      reflexivity.
Defined.

End SessionClaims.

(** ** Further facts about the string primitives *)

Section MoreStringFacts.
Import JsString Output.

Lemma isSpace_lowerUnit (c : ascii) : isSpace (lowerUnit c) = isSpace c.
Proof. destruct c as [[] [] [] [] [] [] [] []]; reflexivity. Qed.

Lemma toLowerCase_append (a b : string) :
  toLowerCase (a ++ b) = toLowerCase a ++ toLowerCase b.
Proof. induction a as [|c a IH]; simpl; [reflexivity|now rewrite IH]. Qed.

Lemma toLowerCase_length (s : string) : length (toLowerCase s) = length s.
Proof. induction s as [|c s IH]; simpl; [reflexivity|now rewrite IH]. Qed.

Lemma toLowerCase_empty (s : string) : toLowerCase s = "" <-> s = "".
Proof. destruct s; simpl; split; intros H; try reflexivity; discriminate. Qed.

Lemma append_assoc_str (a b c : string) : (a ++ b) ++ c = a ++ b ++ c.
Proof. induction a as [|x a IH]; simpl; [reflexivity|now rewrite IH]. Qed.

Lemma append_same_length (x x' y y' : string) :
  length x = length x' -> x ++ y = x' ++ y' -> x = x' /\ y = y'.
Proof.
  revert x'; induction x as [|c x IH]; intros [|c' x'] L E; simpl in *;
    try discriminate.
  - auto.
  - injection E as <- E. injection L as L.
    destruct (IH _ L E) as [<- <-]. auto.
Qed.

(** The parts of a lower-case string are lower-case. *)
Lemma lower_parts (a b : string) :
  toLowerCase (a ++ b) = a ++ b -> toLowerCase a = a /\ toLowerCase b = b.
Proof.
  rewrite toLowerCase_append. apply append_same_length, toLowerCase_length.
Qed.

Lemma includes_iff (s p : string) :
  includes s p = true <-> exists b a, s = b ++ p ++ a.
Proof.
  unfold includes. split.
  - destruct (cut p s) as [[b a]|] eqn:C; [|discriminate].
    intros _. exists b, a. now apply cut_sound.
  - intros (b & a & E).
    destruct (cut p s) as [[b' a']|] eqn:C; [reflexivity|].
    exfalso. exact (cut_complete _ _ C b a E).
Qed.

Lemma includes_empty (s : string) : includes s "" = true.
Proof. apply includes_iff. exists "", s. reflexivity. Qed.

(** Containment composes: a phrase inside a phrase inside the transcript. *)
Lemma includes_trans (s q p : string) :
  includes s q = true -> includes q p = true -> includes s p = true.
Proof.
  rewrite !includes_iff. intros (b & a & ->) (b' & a' & ->).
  exists (b ++ b'), (a' ++ a). now rewrite !append_assoc_str.
Qed.

(** What a lowered transcript contains is lower-case. *)
Lemma included_in_lower (s p : string) :
  toLowerCase s = s -> includes s p = true -> toLowerCase p = p.
Proof.
  intros L H. apply includes_iff in H. destruct H as (b & a & E).
  rewrite E in L. apply lower_parts in L. destruct L as [_ L].
  now apply lower_parts in L.
Qed.

Lemma trimStart_lower (s : string) :
  toLowerCase (trimStart s) = trimStart (toLowerCase s).
Proof.
  induction s as [|c s IH]; simpl; [reflexivity|].
  rewrite isSpace_lowerUnit. destruct (isSpace c); [exact IH|reflexivity].
Qed.

Lemma trimEnd_lower (s : string) :
  toLowerCase (trimEnd s) = trimEnd (toLowerCase s).
Proof.
  induction s as [|c s IH]; simpl; [reflexivity|].
  rewrite <- IH, isSpace_lowerUnit.
  destruct (trimEnd s); simpl; [destruct (isSpace c)|]; reflexivity.
Qed.

Lemma trim_lower (s : string) : toLowerCase (trim s) = trim (toLowerCase s).
Proof. unfold trim. now rewrite trimEnd_lower, trimStart_lower. Qed.

Lemma trimStart_clean (s : string) : startsClean (trimStart s).
Proof.
  induction s as [|c s IH]; simpl; [exact I|].
  destruct (isSpace c) eqn:E; [exact IH|exact E].
Qed.

Lemma trimStart_fixed (s : string) : startsClean s -> trimStart s = s.
Proof. destruct s as [|c s]; simpl; [reflexivity|]. now intros ->. Qed.

Lemma trimEnd_clean (s : string) : startsClean s -> startsClean (trimEnd s).
Proof.
  destruct s as [|c s]; simpl; [exact id|]. intros E.
  destruct (trimEnd s); [rewrite E|]; exact E.
Qed.

Lemma trimEnd_idempotent (s : string) : trimEnd (trimEnd s) = trimEnd s.
Proof.
  induction s as [|c s IH]; simpl; [reflexivity|].
  destruct (trimEnd s) as [|d r] eqn:E.
  - destruct (isSpace c) eqn:F; simpl; [reflexivity|now rewrite F].
  - change (trimEnd (String c (String d r))) with
      (match trimEnd (String d r) with
       | EmptyString => if isSpace c then EmptyString else String c EmptyString
       | x => String c x
       end).
    now rewrite IH.
Qed.

Lemma trim_idempotent (s : string) : trim (trim s) = trim s.
Proof.
  unfold trim.
  rewrite (trimStart_fixed (trimEnd (trimStart s))).
  - apply trimEnd_idempotent.
  - apply trimEnd_clean, trimStart_clean.
Qed.

(** The pieces of a lower-case string are lower-case. *)
Lemma splitLoop_lower (n : nat) (sep s : string) :
  toLowerCase s = s ->
  Forall (fun x => toLowerCase x = x) (splitLoop n sep s).
Proof.
  revert s; induction n as [|n IH]; intros s L; cbn [splitLoop];
    destruct (cut sep s) as [[b a]|] eqn:C; try (constructor; [exact L|constructor]).
  - apply cut_sound in C. rewrite C in L. apply lower_parts in L.
    constructor; [tauto|constructor].
  - apply cut_sound in C. rewrite C in L. apply lower_parts in L.
    destruct L as [Lb L]. apply lower_parts in L.
    constructor; [exact Lb|]. apply IH. tauto.
Qed.

Lemma units_lower (s : string) :
  toLowerCase s = s -> Forall (fun x => toLowerCase x = x) (units s).
Proof.
  induction s as [|c s IH]; simpl; intros L; [constructor|].
  injection L as Lc Ls. constructor; [simpl; now rewrite Lc|auto].
Qed.

Lemma split_lower (s sep : string) :
  toLowerCase s = s -> Forall (fun x => toLowerCase x = x) (split s sep).
Proof.
  intros L. unfold split. destruct sep.
  - now apply units_lower.
  - now apply splitLoop_lower.
Qed.

End MoreStringFacts.

(** ** Further facts about the dispatcher *)

Section MoreDispatcherFacts.
Import JsString Dispatcher Table.

Lemma perform_invoked (w : world) (t : string) (b : builtin) (a : action) :
  In a (actions (fst (perform w t b))) -> invokedBy b a = true.
Proof.
  destruct b; cbn [perform];
    repeat match goal with
           | |- context [match ?x with _ => _ end] => destruct x
           end;
    simpl; intros H; repeat (destruct H as [<-|H]); try contradiction;
    reflexivity.
Qed.

Lemma invokedBy_one (b b' : builtin) (a : action) :
  invokedBy b a = true -> invokedBy b' a = true -> b = b'.
Proof. destruct a, b; simpl; try discriminate; destruct b'; simpl; congruence. Qed.

(** An action of a built-in is invoked only when that built-in is the one
    the dispatch selects. *)
Lemma fired_is_selected (w : world) (transcript : string) (b : builtin)
    (a : action) :
  In a (actions (fst (processCommand w transcript))) ->
  invokedBy b a = true ->
  firstBuiltin (voice w) (toLowerCase transcript) = Some b.
Proof.
  rewrite processCommand_eq. unfold dispatchByPriority.
  set (t := toLowerCase transcript).
  destruct (firstBuiltin (voice w) t) as [b'|].
  - intros Hin Hb. f_equal. apply perform_invoked in Hin.
    exact (invokedBy_one _ _ _ Hin Hb).
  - destruct (find (taskMatches t) (complexTasks w)).
    + simpl. intros [<-|[]] Hb. destruct b; discriminate.
    + destruct (firstAutomation t (automationSequences w)) as [[e|]|];
        simpl; try tauto.
      intros [<-|[]] Hb. destruct b; discriminate.
Qed.

(** The selected built-in is the first of the if-chain whose phrase is
    contained. *)
Lemma firstBuiltin_first (c : voiceCommands) (t : string) (b b' : builtin) :
  firstBuiltin c t = Some b ->
  position b' < position b ->
  includes t (trigger c b') = false.
Proof.
  intros E L. unfold firstBuiltin, table in E. cbn [find trigger] in E.
  repeat match type of E with
         | context [includes t ?p] => destruct (includes t p) eqn:?
         end;
    try discriminate; injection E as <-;
    destruct b'; simpl in *; try lia; assumption.
Qed.

Lemma firstAutomation_phrased (t : string) (autos : list entry) :
  forallb phrased autos = true -> firstAutomation t autos <> None.
Proof.
  induction autos as [|a rest IH]; simpl; [discriminate|].
  intros H. apply andb_true_iff in H. destruct H as [Ha Hr].
  unfold automationMatches, phrased in *.
  destruct (commands a).
  - destruct (truthy _); [discriminate|auto].
  - destruct (truthy (command a)).
    + destruct (includes _ _); [discriminate|auto].
    + destruct (name a); [|discriminate].
      destruct (includes _ _); [discriminate|auto].
Qed.

Lemma extractArg_lower (t p x : string) :
  toLowerCase t = t -> extractArg t p = Some x ->
  trim x = x /\ toLowerCase x = x.
Proof.
  intros L E. unfold extractArg in E.
  destruct (nth_error (split t p) 1) as [piece|] eqn:N; [|discriminate].
  injection E as <-. split; [apply trim_idempotent|].
  rewrite trim_lower. f_equal.
  pose proof (split_lower t p L) as F. rewrite Forall_forall in F.
  apply F. eapply nth_error_In; eauto.
Qed.

Lemma find_lowered (t : string) (l : list string) :
  truthy (find (fun cmd => includes t (toLowerCase cmd)) (map toLowerCase l))
  = truthy (find (fun cmd => includes t (toLowerCase cmd)) l).
Proof.
  induction l as [|c l IH]; simpl; [reflexivity|].
  rewrite toLowerCase_idempotent.
  destruct (includes t (toLowerCase c)); [|exact IH].
  destruct c; reflexivity.
Qed.

Lemma find_truthy (t : string) (l : list string) :
  truthy (find (fun cmd => includes t (toLowerCase cmd)) l) = true <->
  exists l1 cmd l2,
    l = (l1 ++ cmd :: l2)%list /\ cmd <> "" /\
    includes t (toLowerCase cmd) = true /\
    Forall (fun c => includes t (toLowerCase c) = false) l1.
Proof.
  induction l as [|c l IH]; simpl.
  - split; [discriminate|]. intros (l1 & cmd & l2 & E & _). now destruct l1.
  - destruct (includes t (toLowerCase c)) eqn:I.
    + split.
      * intros T. exists [], c, l. repeat split; auto.
        intros ->. discriminate.
      * intros (l1 & cmd & l2 & E & N & Ic & F).
        destruct l1 as [|d l1]; simpl in E; injection E as -> ->.
        -- destruct cmd; [congruence|reflexivity].
        -- inversion F; congruence.
    + rewrite IH. split.
      * intros (l1 & cmd & l2 & -> & N & Ic & F).
        exists (c :: l1), cmd, l2. repeat split; auto.
      * intros (l1 & cmd & l2 & E & N & Ic & F).
        destruct l1 as [|d l1]; simpl in E; injection E as -> ->.
        -- congruence.
        -- inversion F. eauto 8.
Qed.

End MoreDispatcherFacts.

(** ** More about what the dispatcher does *)

Section DispatcherProperties.
Import JsString Dispatcher Table.

Lemma extractArg_defined (t p : string) :
  p <> "" -> includes t p = true -> exists x, extractArg t p = Some x.
Proof.
  intros Hp H.
  destruct (split_second_piece _ _ Hp H) as (b & rest & piece & _ & _ & more & S).
  unfold extractArg. rewrite S. simpl. eauto.
Qed.

(** X1: an action of a built-in is invoked only if the lowered transcript
    contains that built-in's phrase and contains the phrase of no built-in
    that stands earlier in the if-chain. *)
Theorem builtin_fires_only_on_first_phrase
    (w : world) (transcript : string) (b : builtin) (a : action) :
  In a (actions (fst (processCommand w transcript))) ->
  invokedBy b a = true ->
  includes (toLowerCase transcript) (trigger (voice w) b) = true /\
  forall b', position b' < position b ->
             includes (toLowerCase transcript) (trigger (voice w) b') = false.
Proof.
  intros Hin Hb. pose proof (fired_is_selected _ _ _ _ Hin Hb) as F.
  split; [now apply firstBuiltin_some|].
  intros b' L. eapply firstBuiltin_first; eauto.
Qed.

Lemma builtin_fires_only_on_first_phrase_witness :
  includes (toLowerCase "Please STOP timer") (trigger (voice sampleWorld) BStopTimer)
  = true /\
  forall b', position b' < position BStopTimer ->
             includes (toLowerCase "Please STOP timer")
                      (trigger (voice sampleWorld) b') = false.
Proof.
  apply (builtin_fires_only_on_first_phrase sampleWorld "Please STOP timer"
           BStopTimer StopTimer).
  - simpl. auto.
  - reflexivity.
Defined.

(** X2: when the phrase of an earlier built-in occurs inside the phrase of
    a later one, the later built-in is unreachable: no transcript ever
    invokes its action. *)
Theorem shadowed_builtin_never_fires (w : world) (b1 b2 : builtin) :
  position b1 < position b2 ->
  includes (trigger (voice w) b2) (trigger (voice w) b1) = true ->
  forall transcript a,
    invokedBy b2 a = true ->
    ~ In a (actions (fst (processCommand w transcript))).
Proof.
  intros L S transcript a Hb Hin.
  pose proof (fired_is_selected _ _ _ _ Hin Hb) as F.
  pose proof (firstBuiltin_first _ _ _ _ F L) as N.
  apply firstBuiltin_some in F.
  rewrite (includes_trans _ _ _ F S) in N. discriminate.
Qed.

Lemma shadowed_builtin_never_fires_witness :
  ~ In (HandleTimerForDuration "5 minutes")
       (actions (fst (processCommand extendedWorld "start timer for 5 minutes"))).
Proof.
  apply (shadowed_builtin_never_fires extendedWorld BStartTimer BStartTimerFor).
  - simpl. lia.
  - reflexivity.
  - reflexivity.
Defined.

(** X3: the built-in phrases are compared as configured against the lowered
    transcript, so a built-in whose phrase holds an upper-case letter is
    never invoked. *)
Theorem capital_phrase_never_matches (w : world) (b : builtin) :
  toLowerCase (trigger (voice w) b) <> trigger (voice w) b ->
  forall transcript a,
    invokedBy b a = true ->
    ~ In a (actions (fst (processCommand w transcript))).
Proof.
  intros C transcript a Hb Hin.
  pose proof (fired_is_selected _ _ _ _ Hin Hb) as F.
  apply firstBuiltin_some in F. apply C.
  eapply included_in_lower; [|exact F]. apply toLowerCase_idempotent.
Qed.

Lemma capital_phrase_never_matches_witness :
  ~ In (HandleSmartExerciseLogging "squats")
       (actions (fst (processCommand extendedWorld "Log exercise squats"))).
Proof.
  apply (capital_phrase_never_matches extendedWorld BLogExercise).
  - intros H. vm_compute in H. discriminate.
  - reflexivity.
Defined.

(** X4: a built-in configured with the empty phrase is contained in every
    transcript: no complex task and no automation is ever executed, and the
    "not recognized" run never results. *)
Theorem empty_phrase_takes_every_transcript (w : world) (b : builtin) :
  trigger (voice w) b = "" ->
  forall transcript,
    (forall e, ~ In (ExecuteComplexTask e)
                    (actions (fst (processCommand w transcript)))) /\
    (forall e, ~ In (ExecuteAutomationSequence e)
                    (actions (fst (processCommand w transcript)))) /\
    fst (processCommand w transcript) <> [SpeakFeedback notRecognized None].
Proof.
  intros E transcript.
  assert (I : includes (toLowerCase transcript) (trigger (voice w) b) = true)
    by (rewrite E; apply includes_empty).
  destruct (firstBuiltin_found _ _ _ I) as [b' F].
  rewrite processCommand_eq. unfold dispatchByPriority. rewrite F.
  repeat split.
  - intros e Hin. apply perform_invoked in Hin. destruct b'; discriminate.
  - intros e Hin. apply perform_invoked in Hin. destruct b'; discriminate.
  - destruct b'; cbn [perform];
      repeat match goal with
             | |- context [match ?x with _ => _ end] => destruct x
             end; discriminate.
Qed.

Lemma empty_phrase_takes_every_transcript_witness :
  (forall e, ~ In (ExecuteComplexTask e)
                  (actions (fst (processCommand extendedWorld "morning routine")))) /\
  (forall e, ~ In (ExecuteAutomationSequence e)
                  (actions (fst (processCommand extendedWorld "morning routine")))) /\
  fst (processCommand extendedWorld "morning routine")
  <> [SpeakFeedback notRecognized None].
Proof.
  apply (empty_phrase_takes_every_transcript extendedWorld BAddEntry).
  reflexivity.
Defined.

(** X5: the argument an argument-taking built-in passes on is always
    lower-case and free of surrounding white space, whatever the phrase. *)
Theorem argument_is_trimmed_and_lower
    (w : world) (transcript : string) (a : action) (phrase x : string) :
  In a (actions (fst (processCommand w transcript))) ->
  argumentOf (voice w) a = Some (phrase, x) ->
  trim x = x /\ toLowerCase x = x.
Proof.
  intros Hin Harg.
  rewrite processCommand_eq in Hin. unfold dispatchByPriority in Hin.
  set (t := toLowerCase transcript) in *.
  destruct (firstBuiltin (voice w) t) as [b|].
  - destruct (proj2 (perform_actions w t b) _ Hin) as (_ & _ & H).
    destruct (H _ _ Harg) as [_ E].
    eapply extractArg_lower; [|exact E]. apply toLowerCase_idempotent.
  - destruct (find (taskMatches t) (complexTasks w)).
    + simpl in Hin. destruct Hin as [<-|[]]. discriminate.
    + destruct (firstAutomation t (automationSequences w)) as [[e|]|];
        simpl in Hin; try contradiction.
      destruct Hin as [<-|[]]. discriminate.
Qed.

Lemma argument_is_trimmed_and_lower_witness :
  trim "push ups" = "push ups" /\ toLowerCase "push ups" = "push ups".
Proof.
  apply (argument_is_trimmed_and_lower sampleWorld "Log Exercise   Push Ups "
           (HandleSmartExerciseLogging "push ups") "log exercise" "push ups").
  - vm_compute. auto.
  - reflexivity.
Defined.

Lemma raise_leaves_no_call (w : world) (transcript : string) :
  snd (processCommand w transcript) = TypeError ->
  fst (processCommand w transcript) = [].
Proof.
  rewrite processCommand_eq. unfold dispatchByPriority.
  set (t := toLowerCase transcript).
  destruct (firstBuiltin (voice w) t) as [b|].
  - destruct b; cbn [perform];
      repeat match goal with
             | |- context [match ?x with _ => _ end] => destruct x
             end; simpl; intros H; try discriminate; reflexivity.
  - destruct (find (taskMatches t) (complexTasks w)); [discriminate|].
    destruct (firstAutomation t (automationSequences w)) as [[e|]|];
      simpl; intros H; try discriminate; reflexivity.
Qed.

Lemma one_action_at_most (w : world) (transcript : string) :
  List.length (actions (fst (processCommand w transcript))) <= 1.
Proof.
  rewrite processCommand_eq. unfold dispatchByPriority.
  destruct (firstBuiltin _ _) as [b|]; [apply perform_actions|].
  destruct (find _ _); [simpl; lia|].
  destruct (firstAutomation _ _) as [[a|]|]; simpl; lia.
Qed.

(** X6: when [processCommand] raises, it has made no call: no action was
    invoked and nothing was said before the TypeError. *)
Theorem raise_makes_no_call (w : world) (transcript : string) :
  snd (processCommand w transcript) = TypeError ->
  fst (processCommand w transcript) = [].
Proof. exact (raise_leaves_no_call w transcript). Qed.

Lemma raise_makes_no_call_witness :
  fst (processCommand bareWorld "set actual reps 3") = [].
Proof.
  apply (raise_makes_no_call bareWorld "set actual reps 3"). reflexivity.
Defined.

(** X7: on a configuration whose three split phrases are non-empty, whose
    page has the [type] element and whose automations each carry a phrase,
    [processCommand] never raises. *)
Theorem well_formed_never_raises (w : world) (transcript : string) :
  wellFormed w -> snd (processCommand w transcript) = Normal.
Proof.
  intros (H1 & H2 & H3 & H4 & H5).
  rewrite processCommand_eq. unfold dispatchByPriority.
  set (t := toLowerCase transcript).
  destruct (firstBuiltin (voice w) t) as [b|] eqn:F.
  - apply firstBuiltin_some in F.
    destruct b; cbn [perform trigger] in *; try reflexivity.
    + destruct (extractArg_defined _ _ H1 F) as [x ->]. reflexivity.
    + destruct (extractArg_defined _ _ H2 F) as [x ->]. reflexivity.
    + destruct (getElementById w "addEntry"); reflexivity.
    + destruct (extractArg_defined _ _ H3 F) as [x ->].
      destruct (getElementById w "type") as [type|]; [|congruence].
      destruct (repsField w type); reflexivity.
  - destruct (find (taskMatches t) (complexTasks w)); [reflexivity|].
    pose proof (firstAutomation_phrased t _ H5) as P.
    destruct (firstAutomation t (automationSequences w)) as [[e|]|];
      [reflexivity|reflexivity|congruence].
Qed.

Lemma well_formed_never_raises_witness :
  snd (processCommand sampleWorld "set actual reps") = Normal.
Proof.
  apply (well_formed_never_raises sampleWorld "set actual reps").
  repeat split; try (intros H; vm_compute in H; discriminate).
Defined.

(** X8: an entry with a [commands] list matches exactly when the first
    phrase of the list that the transcript contains (compared in lower
    case) is not the empty string; the case of the configured phrases does
    not matter, and an empty phrase at the head of the list disables the
    entry. *)
Theorem commands_list_matching (t : string) (l : list string) :
  (taskMatches t (byCommands l) = true <->
   exists l1 cmd l2,
     l = (l1 ++ cmd :: l2)%list /\ cmd <> "" /\
     includes t (toLowerCase cmd) = true /\
     Forall (fun c => includes t (toLowerCase c) = false) l1) /\
  taskMatches t (byCommands (map toLowerCase l)) = taskMatches t (byCommands l) /\
  automationMatches t (byCommands (map toLowerCase l))
  = automationMatches t (byCommands l) /\
  taskMatches t (byCommands ("" :: l)) = false /\
  automationMatches t (byCommands ("" :: l)) = Some false.
Proof.
  unfold taskMatches, automationMatches. cbn [commands byCommands].
  split; [apply find_truthy|].
  rewrite find_lowered. repeat split.
  - cbn [find toLowerCase]. now rewrite includes_empty.
  - cbn [find toLowerCase]. now rewrite includes_empty.
Qed.

Lemma commands_list_matching_witness :
  taskMatches "please start my day" (byCommands ["Morning Routine"; "Start my day"])
  = true.
Proof.
  apply (proj1 (commands_list_matching "please start my day"
                  ["Morning Routine"; "Start my day"])).
  exists ["Morning Routine"], "Start my day", [].
  repeat split.
  - discriminate.
  - repeat constructor.
Defined.

End DispatcherProperties.

(** ** Engine output and the recorder's handler *)

Section OutputProperties.
Import JsString Dispatcher Output Transcription Shim.

Lemma trimStart_empty (s : string) :
  trimStart s = "" <-> forallb isSpace (codeUnits s) = true.
Proof.
  induction s as [|c s IH]; simpl; [tauto|].
  destruct (isSpace c); simpl; [exact IH|].
  split; discriminate.
Qed.

Lemma trimEnd_empty (s : string) : startsClean s -> trimEnd s = "" -> s = "".
Proof.
  destruct s as [|c s]; simpl; [reflexivity|]. intros ->.
  destruct (trimEnd s); discriminate.
Qed.

Lemma trim_empty (s : string) :
  trim s = "" <-> forallb isSpace (codeUnits s) = true.
Proof.
  rewrite <- trimStart_empty. unfold trim. split.
  - apply trimEnd_empty, trimStart_clean.
  - now intros ->.
Qed.

(** X9: whatever [_handleWhisperOutput] hands to [onresult] is a single
    result whose transcript is the trimmed, lowered line: it is not empty,
    has no surrounding white space and no upper-case letter; and a handler
    is installed. *)
Theorem forwarded_transcript_is_normalised
    (r : recognition) (line : option string) (e : speechEvent) :
  _handleWhisperOutput r line = Some e ->
  onresult r = true /\
  List.length (results e) = 1 /\
  exists t,
    heard e = Some t /\
    t = toLowerCase (trim (match line with Some s => s | None => "" end)) /\
    t <> "" /\ trim t = t /\ toLowerCase t = t.
Proof.
  unfold _handleWhisperOutput.
  set (s := match line with Some s => s | None => "" end).
  destruct (trim s) as [|c u] eqn:T; [discriminate|].
  destruct (onresult r); [|discriminate].
  intros E. injection E as <-. split; [reflexivity|]. split; [reflexivity|].
  exists (toLowerCase (trim s)). split; [now rewrite T|].
  split; [now rewrite T|]. split; [|split].
  - intros H. apply (proj1 (toLowerCase_empty _)) in H.
    rewrite T in H. discriminate.
  - rewrite <- trim_lower. now rewrite trim_idempotent.
  - apply toLowerCase_idempotent.
Qed.

Lemma forwarded_transcript_is_normalised_witness :
  onresult Policy.wired = true /\
  List.length
    (results {| results := [[ {| transcript := "start timer";
                                 confidence := QArith_base.Qmake 3%Z 4%positive |} ]];
                resultIndex := 0 |}) = 1 /\
  exists t,
    heard {| results := [[ {| transcript := "start timer";
                              confidence := QArith_base.Qmake 3%Z 4%positive |} ]];
             resultIndex := 0 |} = Some t /\
    t = toLowerCase (trim "  Start Timer ") /\
    t <> "" /\ trim t = t /\ toLowerCase t = t.
Proof.
  apply (forwarded_transcript_is_normalised Policy.wired (Some "  Start Timer ")).
  reflexivity.
Defined.

(** X10: a printed line reaches [onresult] exactly when a handler is
    installed and the line holds a code unit that is not white space; an
    absent line and a printed value that is not a string never do. *)
Theorem output_forwarded_exactly_when_audible (r : recognition) (s : string) :
  (match _handleWhisperOutput r (Some s) with Some _ => true | None => false end)
  = onresult r && negb (forallb isSpace (codeUnits s)) /\
  print r (Some s) = _handleWhisperOutput r (Some s) /\
  _handleWhisperOutput r None = None /\
  print r None = None.
Proof.
  repeat split. unfold _handleWhisperOutput.
  destruct (forallb isSpace (codeUnits s)) eqn:F.
  - apply trim_empty in F. rewrite F. now rewrite andb_false_r.
  - destruct (trim s) eqn:T.
    + apply trim_empty in T. congruence.
    + destruct (onresult r); reflexivity.
Qed.

Lemma dispatchedActions_map (chunk : Type) (calls : list Dispatcher.event) :
  dispatchedActions (map (@Dispatched chunk) calls) = actions calls.
Proof.
  induction calls as [|[a|text key] rest IH]; simpl; [reflexivity| |exact IH].
  now rewrite IH.
Qed.

Lemma dispatchedActions_app (chunk : Type) (x y : list (Transcription.event chunk)) :
  dispatchedActions (x ++ y) = (dispatchedActions x ++ dispatchedActions y)%list.
Proof.
  induction x as [|[| | |[a|t k]] x IH]; simpl; try exact IH; [reflexivity|].
  now rewrite IH.
Qed.

Lemma recorded_chunks (chunk : Type) (datas acc : list chunk) :
  fold_left ondataavailable datas acc = (acc ++ datas)%list.
Proof.
  revert acc; induction datas as [|d datas IH]; intros acc; simpl.
  - now rewrite app_nil_r.
  - rewrite IH. unfold ondataavailable. now rewrite <- app_assoc.
Qed.

(** X11: the [onstop] handler empties the chunk buffer, hands the engine
    all the chunks recorded since the buffer was last emptied, in order,
    and always ends on one status line, "Whisper ready" or "Transcription
    failed"; between the two at most one action is dispatched. *)
Theorem onstop_protocol (chunk : Type) (w : world)
    (transcribe : list chunk -> option (option string)) (datas : list chunk) :
  let run := onstop w transcribe (fold_left ondataavailable datas []) in
  fst run = [] /\
  (exists middle final,
      snd run = ([UpdateVoiceStatus "Transcribing..." "listening";
                  Transcribe datas] ++ middle ++ [final])%list /\
      (final = UpdateVoiceStatus "Whisper ready" "ready" \/
       final = UpdateVoiceStatus "Transcription failed" "error")) /\
  List.length (dispatchedActions (snd run)) <= 1.
Proof.
  rewrite recorded_chunks. cbn [app]. unfold onstop. cbn [fst snd].
  split; [reflexivity|].
  destruct (transcribe datas) as [text|].
  - destruct (truthy text).
    + pose proof (one_action_at_most w (toString text)) as A.
      destruct (processCommand w (toString text)) as [calls how]. cbn [fst] in A.
      split.
      * exists (AddVoiceMessage "user" (toString text) :: map Dispatched calls).
        destruct how; eexists; (split; [cbn [app]; rewrite <- ?app_comm_cons;
                                       reflexivity|]); auto.
      * cbn [app dispatchedActions].
        rewrite dispatchedActions_app, dispatchedActions_map, length_app.
        destruct how; simpl; lia.
    + split; [exists [] ; eexists; split; [reflexivity|auto]|simpl; lia].
  - split; [exists [] ; eexists; split; [reflexivity|auto]|simpl; lia].
Qed.

(** X12: a TypeError raised by [processCommand] is caught by the handler's
    try/catch around the transcription: the transcript is shown, nothing is
    dispatched, and the status reads "Transcription failed". *)
Theorem dispatch_error_shows_as_transcription_failure (chunk : Type)
    (w : world) (transcribe : list chunk -> option (option string))
    (audioChunks : list chunk) (text : string) :
  transcribe audioChunks = Some (Some text) ->
  text <> "" ->
  snd (processCommand w text) = TypeError ->
  snd (onstop w transcribe audioChunks)
  = [UpdateVoiceStatus "Transcribing..." "listening";
     Transcribe audioChunks;
     AddVoiceMessage "user" text;
     UpdateVoiceStatus "Transcription failed" "error"].
Proof.
  intros T N R. pose proof (raise_leaves_no_call _ _ R) as E.
  unfold onstop. rewrite T. cbn [truthy toString snd].
  destruct text as [|c u]; [congruence|].
  destruct (processCommand w (String c u)) as [calls how].
  simpl in R, E. subst. reflexivity.
Qed.

Lemma dispatch_error_shows_as_transcription_failure_witness :
  snd (onstop bareWorld (fun _ : list nat => Some (Some "set actual reps 3")) [1; 2])
  = [UpdateVoiceStatus "Transcribing..." "listening";
     Transcribe [1; 2];
     AddVoiceMessage "user" "set actual reps 3";
     UpdateVoiceStatus "Transcription failed" "error"].
Proof.
  apply (dispatch_error_shows_as_transcription_failure nat bareWorld
           (fun _ => Some (Some "set actual reps 3")) [1; 2] "set actual reps 3").
  - reflexivity.
  - discriminate.
  - reflexivity.
Defined.

End OutputProperties.

(** ** The recorder and the shim over whole sessions *)

Section SessionProperties.
Import Shim Recorder Policy Session.

Lemma recorderStep_invariant (v : vars) (c : recorderCall) :
  recorderInvariant v = true -> recorderInvariant (recorderStep v c) = true.
Proof.
  destruct v as [w rec ac mr], c as [b|b|]; unfold recorderInvariant;
    cbn [recorderStep]; unfold startWhisperRecognition, initializeWhisper,
    stopWhisperRecognition; simpl;
    destruct w, rec, ac, mr; simpl; try discriminate; intros _;
    try destruct (WhisperDefined b); try destruct (scriptLoads b);
    try destruct (initResolves b); try destruct (getUserMedia b); reflexivity.
Qed.

Lemma afterCalls_invariant (cs : list recorderCall) (v : vars) :
  recorderInvariant v = true ->
  recorderInvariant (fold_left recorderStep cs v) = true.
Proof.
  revert v; induction cs as [|c cs IH]; intros v H; simpl; [exact H|].
  apply IH, recorderStep_invariant, H.
Qed.

(** X13: after any sequence of [initializeWhisper],
    [startWhisperRecognition] and [stopWhisperRecognition] calls from the
    initial variables, [isRecording] is set only while a recorder and an
    audio context exist; hence [stopWhisperRecognition] always leaves
    [isRecording] cleared. *)
Theorem recorder_stays_consistent (cs : list recorderCall) :
  implb (isRecording (afterCalls cs))
        (mediaRecorder (afterCalls cs) && audioContext (afterCalls cs)) = true /\
  isRecording (fst (stopWhisperRecognition (afterCalls cs))) = false.
Proof.
  assert (H : recorderInvariant (afterCalls cs) = true)
    by (apply afterCalls_invariant; reflexivity).
  split; [exact H|].
  unfold recorderInvariant in H. unfold stopWhisperRecognition.
  destruct (afterCalls cs) as [w [|] ac [|]]; simpl in *;
    try reflexivity; discriminate.
Qed.



(** X15: [initializeWhisper] assigns [whisper] before it awaits
    [whisper.init()], so once the library is available the variable is set
    even when the initialisation fails, and no later
    [startWhisperRecognition] initialises again: its status lines are only
    "Listening..." or "Mic access denied". *)
Theorem failed_init_is_not_retried (b : browser) (v : vars) :
  WhisperDefined b || scriptLoads b = true ->
  whisper (fst (initializeWhisper b v)) = true /\
  forall b' text kind,
    In (UpdateVoiceStatus text kind)
       (snd (startWhisperRecognition b' (fst (initializeWhisper b v)))) ->
    text = "Listening..." \/ text = "Mic access denied".
Proof.
  intros H. unfold initializeWhisper.
  destruct (WhisperDefined b), (scriptLoads b); try discriminate; simpl;
    destruct (initResolves b); simpl; (split; [reflexivity|]);
    intros b' text kind; unfold startWhisperRecognition, stopWhisperRecognition;
    simpl; destruct (isRecording v), (mediaRecorder v), (getUserMedia b'); simpl;
    intros Hin; repeat (destruct Hin as [Hin|Hin]; try discriminate);
    try contradiction; injection Hin as <- <-; auto.
Qed.

Lemma failed_init_is_not_retried_witness :
  whisper (fst (initializeWhisper failingInit initial)) = true /\
  forall b' text kind,
    In (UpdateVoiceStatus text kind)
       (snd (startWhisperRecognition b' (fst (initializeWhisper failingInit initial)))) ->
    text = "Listening..." \/ text = "Mic access denied".
Proof.
  apply (failed_init_is_not_retried failingInit initial). reflexivity.
Defined.

End SessionProperties.

Section ShimProperties.
Import Shim Policy Session.

(** X16: what [_initWhisper] returns is the [_moduleLoaded] flag it
    leaves; a loaded module stays loaded and a fetched model stays
    fetched. *)
Theorem init_reports_the_loaded_flag (p : platform) (r : recognition) :
  snd (_initWhisper p r) = _moduleLoaded (fst (_initWhisper p r)) /\
  implb (_moduleLoaded r) (_moduleLoaded (fst (_initWhisper p r))) = true /\
  implb (_modelData r) (_modelData (fst (_initWhisper p r))) = true.
Proof.
  unfold _initWhisper.
  destruct (_moduleLoaded r) eqn:L, (_modelData r) eqn:D, (modelFetches p),
    (mainJsLoads p); simpl; rewrite ?L, ?D; auto.
Qed.

(** X17: the model is kept once fetched: an attempt during which the fetch
    succeeds leaves the model stored (unless the module was loaded already
    and nothing was attempted), and a later attempt then succeeds as soon as
    main.js loads, even on a platform where the model can no longer be
    fetched. *)
Theorem model_is_fetched_once (p1 p2 : platform) (r : recognition) :
  modelFetches p1 = true ->
  _moduleLoaded r || _modelData (fst (_initWhisper p1 r)) = true /\
  snd (_initWhisper p2 (fst (_initWhisper p1 r)))
  = _moduleLoaded r || mainJsLoads p1 || mainJsLoads p2.
Proof.
  destruct r as [res sta en err lis ctx ms proc ml md uf fs].
  destruct p1 as [f1 j1 n1 e1 o1 m1], p2 as [f2 j2 n2 e2 o2 m2].
  cbn [modelFetches]. intros ->. unfold _initWhisper.
  destruct ml, md, j1, j2, f2; split; reflexivity.
Qed.

Lemma model_is_fetched_once_witness :
  _moduleLoaded constructor ||
  _modelData (fst (_initWhisper
                     {| modelFetches := true; mainJsLoads := false;
                        NativeRecognition := None; enhancedOfflineVoice := None;
                        offlineVoice := None; mic := ContextFails "" |}
                     constructor)) = true /\
  snd (_initWhisper {| modelFetches := false; mainJsLoads := true;
                       NativeRecognition := None; enhancedOfflineVoice := None;
                       offlineVoice := None; mic := ContextFails "" |}
         (fst (_initWhisper
                 {| modelFetches := true; mainJsLoads := false;
                    NativeRecognition := None; enhancedOfflineVoice := None;
                    offlineVoice := None; mic := ContextFails "" |}
                 constructor)))
  = _moduleLoaded constructor || false || true.
Proof.
  apply (model_is_fetched_once
           {| modelFetches := true; mainJsLoads := false;
              NativeRecognition := None; enhancedOfflineVoice := None;
              offlineVoice := None; mic := ContextFails "" |}
           {| modelFetches := false; mainJsLoads := true;
              NativeRecognition := None; enhancedOfflineVoice := None;
              offlineVoice := None; mic := ContextFails "" |}
           constructor).
  reflexivity.
Defined.

Ltac coherence :=
  unfold coherent in *; simpl in *;
  intuition (try discriminate; try congruence; auto).

Lemma initWhisper_coherent (p : platform) (r : recognition) :
  coherent r -> coherent (fst (_initWhisper p r)).
Proof.
  intros C. unfold _initWhisper.
  destruct (_moduleLoaded r) eqn:L; [exact C|].
  destruct (negb (_modelData r) && negb (modelFetches p)); [exact C|].
  destruct (mainJsLoads p); coherence.
Qed.

Lemma tryFallback_coherent (what : string) (made : option fallback)
    (r : recognition) :
  coherent r -> coherent (fst (fst (tryFallback what made r))).
Proof.
  intros C. unfold tryFallback.
  destruct made as [shim|]; [|exact C].
  destruct (startThrows shim); coherence.
Qed.

Lemma openMicrophone_coherent (p : platform) (r : recognition) :
  coherent r -> coherent (fst (openMicrophone p r)).
Proof.
  intros C. unfold openMicrophone.
  destruct (mic p); coherence.
Qed.

Lemma start_coherent (p : platform) (r : recognition) :
  coherent r -> coherent (fst (start p r)).
Proof.
  intros C. unfold start.
  destruct (_listening r); [exact C|].
  pose proof (initWhisper_coherent p r C) as C0.
  destruct (_initWhisper p r) as [r0 [|]]; cbn [fst] in C0.
  - pose proof (openMicrophone_coherent p r0 C0) as CM.
    destruct (openMicrophone p r0). exact CM.
  - assert (C1 : forall what made, coherent (fst (fst (tryFallback what made r0))))
      by (intros; now apply tryFallback_coherent).
    destruct (NativeRecognition p) as [made|].
    + specialize (C1 "Native SpeechRecognition fallback unavailable:" made).
      destruct (tryFallback _ made r0) as [[r1 tr1] [|]]; cbn [fst] in C1;
        [exact C1|].
      destruct (OfflineCtor p) as [made'|].
      * pose proof (tryFallback_coherent "Offline shim fallback unavailable:"
                      made' r1 C1) as C2.
        destruct (tryFallback _ made' r1) as [[r2 tr2] [|]]; cbn [fst] in C2;
          [exact C2|].
        pose proof (openMicrophone_coherent p r2 C2) as CM.
        destruct (openMicrophone p r2). exact CM.
      * pose proof (openMicrophone_coherent p r1 C1) as CM.
        destruct (openMicrophone p r1). exact CM.
    + destruct (OfflineCtor p) as [made'|].
      * pose proof (tryFallback_coherent "Offline shim fallback unavailable:"
                      made' r0 C0) as C2.
        destruct (tryFallback _ made' r0) as [[r2 tr2] [|]]; cbn [fst] in C2;
          [exact C2|].
        pose proof (openMicrophone_coherent p r2 C2) as CM.
        destruct (openMicrophone p r2). exact CM.
      * pose proof (openMicrophone_coherent p r0 C0) as CM.
        destruct (openMicrophone p r0). exact CM.
Qed.

Lemma stop_coherent (r : recognition) : coherent r -> coherent (fst (stop r)).
Proof. intros C. unfold stop. coherence. Qed.

Lemma shimStep_coherent (r : recognition) (c : shimCall) :
  coherent r -> coherent (shimStep r c).
Proof.
  destruct c; cbn [shimStep]; intros C.
  - coherence.
  - now apply start_coherent.
  - now apply stop_coherent.
  - now apply stop_coherent.
Qed.

(** X18: after any sequence of handler assignments and [start], [stop] and
    [abort] calls on a new object, the fields agree with each other: a
    listening object has a fallback in use or a live processor; a processor
    implies an audio context and a media stream, a media stream an audio
    context; [_usingFallback] is set exactly when a fallback recognizer is
    stored; and a loaded module implies a fetched model. *)
Theorem shim_fields_stay_coherent (cs : list shimCall) :
  coherent (afterShimCalls cs).
Proof.
  unfold afterShimCalls.
  assert (H : coherent constructor) by coherence.
  revert H. generalize constructor.
  induction cs as [|c cs IH]; intros r H; simpl; [exact H|].
  apply IH, shimStep_coherent, H.
Qed.

(** X19: a fallback recognizer is only ever engaged when the engine failed
    to initialise during that very [start]; and when a native recognizer is
    there and starts, [start] ends with it: the offline simulation is not
    consulted, the microphone is not opened, no error is reported. *)
Theorem fallback_only_after_engine_failure (p : platform) (r : recognition) :
  _listening r = false ->
  (_usingFallback r = false ->
   _usingFallback (fst (start p r)) = true ->
   snd (_initWhisper p r) = false) /\
  (forall shim,
      snd (_initWhisper p r) = false ->
      NativeRecognition p = Some (Some shim) ->
      startThrows shim = false ->
      start p r = (set_fallback shim (fst (_initWhisper p r)),
                   (fire (onstart r) OnStart ++ [Beep; FallbackStart])%list)).
Proof.
  intros L. split.
  - intros U. unfold start. rewrite L.
    assert (U0 : _usingFallback (fst (_initWhisper p r)) = false).
    { unfold _initWhisper.
      repeat match goal with |- context [if ?c then _ else _] => destruct c end;
        exact U. }
    destruct (_initWhisper p r) as [r0 [|]]; cbn [fst snd] in *; [|reflexivity].
    unfold openMicrophone. destruct (mic p); simpl; congruence.
  - intros shim I N T. unfold start. rewrite L.
    assert (S0 : onstart (fst (_initWhisper p r)) = onstart r).
    { unfold _initWhisper.
      repeat match goal with |- context [if ?c then _ else _] => destruct c end;
        reflexivity. }
    destruct (_initWhisper p r) as [r0 ok]; cbn [fst snd] in *. subst ok.
    rewrite N. unfold tryFallback. rewrite T, S0.
    cbn. now rewrite <- app_assoc.
Qed.

Lemma fallback_only_after_engine_failure_witness :
  start nativeOnly wired
  = (set_fallback {| startThrows := false; hasStop := true |}
       (fst (_initWhisper nativeOnly wired)),
     (fire (onstart wired) OnStart ++ [Beep; FallbackStart])%list).
Proof.
  apply (proj2 (fallback_only_after_engine_failure nativeOnly wired eq_refl));
    reflexivity.
Defined.

(** X20: with an error handler installed, a [start] from a state that is
    not listening ends not listening exactly when it has called [onerror];
    the call is then the last one it makes. *)
Theorem failed_start_is_reported (p : platform) (r : recognition) :
  _listening r = false ->
  onerror r = true ->
  (_listening (fst (start p r)) = false <->
   exists m, In (OnError m) (snd (start p r))) /\
  (_listening (fst (start p r)) = false ->
   exists tr m, snd (start p r) = (tr ++ [OnError m])%list).
Proof.
  intros L E.
  assert (E0 : onerror (fst (_initWhisper p r)) = true).
  { unfold _initWhisper.
    repeat match goal with |- context [if ?c then _ else _] => destruct c end;
      exact E. }
  unfold start. rewrite L.
  destruct (_initWhisper p r) as [r0 ok]; cbn [fst] in E0.
  assert (M : forall r1 tr, onerror r1 = true ->
            ~ (exists m, In (OnError m) tr) ->
            let res := openMicrophone p r1 in
            (_listening (fst res) = false <->
             exists m, In (OnError m) (tr ++ snd res)) /\
            (_listening (fst res) = false ->
             exists tr' m, (tr ++ snd res)%list = (tr' ++ [OnError m])%list)).
  { intros r1 tr E1 N. unfold openMicrophone.
    destruct (mic p) as [m|m|s m|s m|s]; cbn [fst snd set_audio _listening];
      rewrite ?E1; cbn [fire].
    1-4: split; [split; [intros _; exists m; apply in_or_app; right; left;
                          reflexivity | reflexivity]
                | intros _; exists tr, m; reflexivity].
    split; [split; [discriminate|] | discriminate].
    intros [m Hin]. exfalso. apply in_app_or in Hin. destruct Hin as [Hin|Hin].
    - apply N. eauto.
    - destruct (onstart r1); simpl in Hin;
        repeat (destruct Hin as [Hin|Hin]; try discriminate); contradiction. }
  assert (F : forall what made r1,
            onerror r1 = true ->
            onerror (fst (fst (tryFallback what made r1))) = true /\
            (forall m, ~ In (OnError m) (snd (fst (tryFallback what made r1)))) /\
            (snd (tryFallback what made r1) = true ->
             _listening (fst (fst (tryFallback what made r1))) = true)).
  { intros what made r1 E1. unfold tryFallback.
    destruct made as [shim|]; [destruct (startThrows shim)|]; cbn;
      (split; [exact E1|]); (split; [|auto; discriminate]);
      intros m Hin; try destruct (onstart r1); simpl in Hin;
      repeat (destruct Hin as [Hin|Hin]; try discriminate); contradiction. }
  destruct ok.
  - specialize (M r0 [] E0). cbn [app] in M.
    destruct (openMicrophone p r0) as [r3 tr3]. cbn [fst snd] in *.
    apply M. intros [m []].
  - destruct (NativeRecognition p) as [made|].
    + destruct (F "Native SpeechRecognition fallback unavailable:" made r0 E0)
        as (E1 & N1 & R1).
      destruct (tryFallback _ made r0) as [[r1 tr1] ret1]; cbn [fst snd] in *.
      destruct ret1.
      * cbn [fst snd]. rewrite (R1 eq_refl).
        split; [split; [discriminate|intros [m Hin]; destruct (N1 m Hin)]
               |discriminate].
      * destruct (OfflineCtor p) as [made'|].
        -- destruct (F "Offline shim fallback unavailable:" made' r1 E1)
             as (E2 & N2 & R2).
           destruct (tryFallback _ made' r1) as [[r2 tr2] ret2];
             cbn [fst snd] in *.
           destruct ret2.
           ++ cbn [fst snd]. rewrite (R2 eq_refl).
              split; [split; [discriminate|]|discriminate].
              intros [m Hin]. apply in_app_or in Hin.
              destruct Hin as [Hin|Hin]; [destruct (N1 m Hin)|destruct (N2 m Hin)].
           ++ specialize (M r2 (tr1 ++ tr2)%list E2).
              destruct (openMicrophone p r2) as [r3 tr3]. cbn [fst snd] in *.
              rewrite <- app_assoc in M. apply M.
              intros [m Hin]. apply in_app_or in Hin.
              destruct Hin as [Hin|Hin]; [destruct (N1 m Hin)|destruct (N2 m Hin)].
        -- specialize (M r1 tr1 E1).
           destruct (openMicrophone p r1) as [r3 tr3]. cbn [fst snd app] in *.
           apply M. intros [m Hin]. destruct (N1 m Hin).
    + destruct (OfflineCtor p) as [made'|].
      * destruct (F "Offline shim fallback unavailable:" made' r0 E0)
          as (E2 & N2 & R2).
        destruct (tryFallback _ made' r0) as [[r2 tr2] ret2]; cbn [fst snd] in *.
        destruct ret2.
        -- cbn [fst snd app]. rewrite (R2 eq_refl).
           split; [split; [discriminate|intros [m Hin]; destruct (N2 m Hin)]
                  |discriminate].
        -- specialize (M r2 tr2 E2).
           destruct (openMicrophone p r2) as [r3 tr3]. cbn [fst snd app] in *.
           apply M. intros [m Hin]. destruct (N2 m Hin).
      * specialize (M r0 [] E0). cbn [app] in M.
        destruct (openMicrophone p r0) as [r3 tr3]. cbn [fst snd app] in *.
        apply M. intros [m []].
Qed.

Lemma failed_start_is_reported_witness :
  exists tr m, snd (start nothingWorks wired) = (tr ++ [OnError m])%list.
Proof.
  apply (proj2 (failed_start_is_reported nothingWorks wired eq_refl eq_refl)).
  reflexivity.
Defined.

Lemma shimStep_keeps_fallback (r : recognition) (c : shimCall) :
  _usingFallback r = true /\ _fallbackShim r <> None ->
  _usingFallback (shimStep r c) = true /\ _fallbackShim (shimStep r c) <> None.
Proof.
  intros [U S]. destruct c as [res sta en err|p| |]; cbn [shimStep];
    [simpl; auto| |unfold stop; simpl; auto|unfold abort, stop; simpl; auto].
  unfold start. destruct (_listening r); [auto|].
  assert (K : _usingFallback (fst (_initWhisper p r)) = true /\
              _fallbackShim (fst (_initWhisper p r)) <> None).
  { unfold _initWhisper.
    repeat match goal with |- context [if ?c then _ else _] => destruct c end;
      simpl; auto. }
  assert (F : forall what made r1,
            _usingFallback r1 = true /\ _fallbackShim r1 <> None ->
            _usingFallback (fst (fst (tryFallback what made r1))) = true /\
            _fallbackShim (fst (fst (tryFallback what made r1))) <> None).
  { intros what made r1 H. unfold tryFallback.
    destruct made as [shim|]; [destruct (startThrows shim)|]; simpl; auto;
      split; auto; discriminate. }
  assert (M : forall r1,
            _usingFallback r1 = true /\ _fallbackShim r1 <> None ->
            _usingFallback (fst (openMicrophone p r1)) = true /\
            _fallbackShim (fst (openMicrophone p r1)) <> None).
  { intros r1 H. unfold openMicrophone. destruct (mic p); simpl; auto. }
  destruct (_initWhisper p r) as [r0 [|]]; cbn [fst] in K.
  - specialize (M r0 K). destruct (openMicrophone p r0). exact M.
  - destruct (NativeRecognition p) as [made|].
    + pose proof (F "Native SpeechRecognition fallback unavailable:" made r0 K)
        as K1.
      destruct (tryFallback _ made r0) as [[r1 tr1] [|]]; cbn [fst] in K1;
        [exact K1|].
      destruct (OfflineCtor p) as [made'|].
      * pose proof (F "Offline shim fallback unavailable:" made' r1 K1) as K2.
        destruct (tryFallback _ made' r1) as [[r2 tr2] [|]]; cbn [fst] in K2;
          [exact K2|].
        specialize (M r2 K2). destruct (openMicrophone p r2). exact M.
      * specialize (M r1 K1). destruct (openMicrophone p r1). exact M.
    + destruct (OfflineCtor p) as [made'|].
      * pose proof (F "Offline shim fallback unavailable:" made' r0 K) as K2.
        destruct (tryFallback _ made' r0) as [[r2 tr2] [|]]; cbn [fst] in K2;
          [exact K2|].
        specialize (M r2 K2). destruct (openMicrophone p r2). exact M.
      * specialize (M r0 K). destruct (openMicrophone p r0). exact M.
Qed.

(** X21: a fallback recognizer, once engaged, is never let go: whatever
    calls follow, [_usingFallback] stays set and a fallback stays stored,
    so every later [stop] calls the stored recognizer's [stop()] (when it
    has one), also after a session that ran on the microphone. *)
Theorem fallback_is_never_released (r : recognition) (cs : list shimCall) :
  _usingFallback r = true ->
  _fallbackShim r <> None ->
  _usingFallback (fold_left shimStep cs r) = true /\
  exists shim,
    _fallbackShim (fold_left shimStep cs r) = Some shim /\
    (hasStop shim = true ->
     In FallbackStop (snd (stop (fold_left shimStep cs r)))).
Proof.
  intros U S.
  assert (K : _usingFallback (fold_left shimStep cs r) = true /\
              _fallbackShim (fold_left shimStep cs r) <> None).
  { revert r U S. induction cs as [|c cs IH]; intros r U S; simpl; [auto|].
    destruct (shimStep_keeps_fallback r c (conj U S)) as [U' S'].
    now apply IH. }
  destruct K as [U' S']. split; [exact U'|].
  destruct (_fallbackShim (fold_left shimStep cs r)) as [shim|] eqn:E;
    [|congruence].
  exists shim. split; [reflexivity|]. intros H.
  unfold stop. rewrite U', E, H. simpl. auto.
Qed.

Lemma fallback_is_never_released_witness :
  _usingFallback
    (fold_left shimStep [CallStop; CallStart engineLoads]
       (fst (start nativeOnly wired))) = true /\
  exists shim,
    _fallbackShim
      (fold_left shimStep [CallStop; CallStart engineLoads]
         (fst (start nativeOnly wired))) = Some shim /\
    (hasStop shim = true ->
     In FallbackStop
        (snd (stop (fold_left shimStep [CallStop; CallStart engineLoads]
                      (fst (start nativeOnly wired)))))).
Proof.
  apply (fallback_is_never_released (fst (start nativeOnly wired))
           [CallStop; CallStart engineLoads]).
  - reflexivity.
  - discriminate.
Defined.

End ShimProperties.
